(** * jmdict-simple: the acquisition and indexing pipeline

    A shallow embedding of [src/convert.js] (the dictionary indexer) and
    [src/update.js] (release resolver, asset downloader, archive
    extractor), with the properties of the specification stated over it.

    JavaScript strings are sequences of UTF-16 code units; they are
    modelled as [list Z].  Plain objects used as dictionaries are finite
    maps ([gmap]); a JavaScript [Set] is an insertion-ordered list without
    repetition.  The file system, the console and the network are explicit
    state and explicit oracles. *)

From Stdlib Require Import ZArith List String Ascii Lia.
From stdpp Require Import base gmap sets list strings fin_maps.
From Equations Require Import Equations.

#[local] Open Scope Z_scope.

(** ** JavaScript values used by the scripts *)

Module JS.

(** A string is its sequence of UTF-16 code units. *)
Abbreviation jsstring := (list Z).

(** An ASCII literal as a JavaScript string. *)
Definition lit (s : string) : jsstring :=
  List.map (fun a => Z.of_nat (nat_of_ascii a)) (list_ascii_of_string s).

(** [String.fromCharCode(n)]: the argument is taken modulo 2^16. *)
Definition fromCharCode (n : Z) : Z := n mod 65536.

(** [s.charCodeAt(0)] of a one-unit match. *)
Definition charCodeAt0 (c : Z) : Z := c.

(** [s.startsWith(p)] *)
Fixpoint startsWith (s p : jsstring) : bool :=
  match p, s with
  | [], _ => true
  | _ :: _, [] => false
  | b :: p', a :: s' => (a =? b) && startsWith s' p'
  end.

(** [s.endsWith(p)]: the last [p.length] units of [s] are [p]. *)
Definition endsWith (s p : jsstring) : bool :=
  (length p <=? length s)%nat &&
  bool_decide (drop (length s - length p)%nat s = p).

(** The values the scripts pass where a string is expected. *)
Inductive value :=
| VUndefined
| VBool (b : bool)
| VString (s : jsstring).

(** [a === b] on these values. *)
Definition strict_eq (a b : value) : bool :=
  match a, b with
  | VUndefined, VUndefined => true
  | VBool x, VBool y => Bool.eqb x y
  | VString x, VString y => bool_decide (x = y)
  | _, _ => false
  end.

(** Truthiness of a string: only the empty string is falsy. *)
Definition truthy_string (s : jsstring) : bool :=
  match s with [] => false | _ :: _ => true end.

(** Truthiness of an optional string argument ([null]/[undefined] are
    [None]). *)
Definition truthy_opt (o : option jsstring) : bool :=
  match o with Some s => truthy_string s | None => false end.

(** A JavaScript [Set] of strings: insertion ordered, no repetition.
    [add] keeps the set when the member is already there. *)
Definition jsset := list jsstring.

Definition set_has (s : jsset) (x : jsstring) : bool := bool_decide (x ∈ s).

Definition set_add (s : jsset) (x : jsstring) : jsset :=
  if set_has s x then s else s ++ [x].

(** [xs.forEach(x => set.add(x))] *)
Definition set_add_all (s : jsset) (xs : list jsstring) : jsset :=
  fold_left set_add xs s.

(** The own property names of [Object.prototype]: a lookup [o[k]] on a
    plain object finds these even when [o] has no such own property. *)
Definition object_prototype_keys : list jsstring :=
  List.map lit
    [ "constructor"; "__defineGetter__"; "__defineSetter__";
      "hasOwnProperty"; "__lookupGetter__"; "__lookupSetter__";
      "isPrototypeOf"; "propertyIsEnumerable"; "toString"; "valueOf";
      "__proto__"; "toLocaleString" ]%string.

Definition inherited (k : jsstring) : bool :=
  bool_decide (k ∈ object_prototype_keys).

(** UTF-16 encoding of a sequence of code points: one unit below
    U+10000, a surrogate pair above. *)
Definition utf16_units (cp : Z) : jsstring :=
  if cp <? 0x10000 then [cp]
  else [0xD800 + Z.shiftr (cp - 0x10000) 10;
        0xDC00 + Z.land (cp - 0x10000) 0x3FF].

Definition utf16 (cps : list Z) : jsstring := List.concat (List.map utf16_units cps).

End JS.

Import JS.

(** ** POSIX paths (the [path] module as the scripts use it) *)

Module Path.

Definition slash : Z := 47.
Definition dot : jsstring := [46].
Definition dotdot : jsstring := [46; 46].

(** [s.split('/')] *)
Fixpoint split (s : jsstring) : list jsstring :=
  match s with
  | [] => [[]]
  | c :: s' =>
      if c =? slash then [] :: split s'
      else match split s' with
           | seg :: rest => (c :: seg) :: rest
           | [] => [[c]]
           end
  end.

(** [segs.join('/')] *)
Fixpoint unsplit (segs : list jsstring) : jsstring :=
  match segs with
  | [] => []
  | [seg] => seg
  | seg :: rest => seg ++ slash :: unsplit rest
  end.

(** One segment of [normalizeString]: empty and [.] segments vanish, a
    [..] removes the segment before it, or stays when there is none to
    remove and the path is relative.  The stack holds the kept segments,
    last one first. *)
Definition normalize_segment (allowAboveRoot : bool)
    (stack : list jsstring) (seg : jsstring) : list jsstring :=
  if bool_decide (seg = []) || bool_decide (seg = dot) then stack
  else if bool_decide (seg = dotdot) then
    match stack with
    | top :: rest =>
        if bool_decide (top = dotdot)
        then (if allowAboveRoot then dotdot :: stack else stack)
        else rest
    | [] => if allowAboveRoot then [dotdot] else []
    end
  else seg :: stack.

Definition normalizeString (path : jsstring) (allowAboveRoot : bool) : jsstring :=
  unsplit (rev (fold_left (normalize_segment allowAboveRoot) (split path) [])).

Definition isAbsolute (path : jsstring) : bool :=
  match path with c :: _ => c =? slash | [] => false end.

Definition trailingSeparator (path : jsstring) : bool :=
  match rev path with c :: _ => c =? slash | [] => false end.

(** [path.normalize(p)] *)
Definition normalize (path : jsstring) : jsstring :=
  match path with
  | [] => dot
  | _ :: _ =>
      let res := normalizeString path (negb (isAbsolute path)) in
      match res with
      | [] => if isAbsolute path then [slash]
              else if trailingSeparator path then dot ++ [slash] else dot
      | _ :: _ =>
          let res := if trailingSeparator path then res ++ [slash] else res in
          if isAbsolute path then slash :: res else res
      end
  end.

(** [path.join(...args)]: the non-empty arguments, joined by [/], then
    normalized. *)
Definition join (args : list jsstring) : jsstring :=
  match List.filter truthy_string args with
  | [] => dot
  | parts => normalize (unsplit parts)
  end.

End Path.

(** ** The world the scripts run in *)

(** What a promise does: it resolves to a value, or an exception thrown
    in a callback escapes every handler (the process dies and the promise
    is never settled). *)
Inductive settled (A : Type) :=
| Resolved (a : A)
| Uncaught.
Arguments Resolved {A} a.
Arguments Uncaught {A}.

(** Lines written to the console, by the place that writes them. *)
Inductive message :=
| MsgInvalidFileName            (* 'Please provide a valid filename to convert!' *)
| MsgConverting (fileName : jsstring)
| MsgInputMissing               (* 'The input file path does not exists.' *)
| MsgReleaseFolderMissing       (* 'The releaser folder does not exists.' *)
| MsgReadError                  (* 'Error reading the input file:' *)
| MsgParseError                 (* 'Error parsing the source dictionary json data.' *)
| MsgWriteError                 (* 'Error writing the simple dictionary JSON file:' *)
| MsgSaved (path : jsstring)
| MsgCompressError              (* 'Error compressing the file:' *)
| MsgGzSaved (path : jsstring)
| MsgInvalidTag                 (* 'Please supply a valid release tag name.' *)
| MsgUpdating (tag : jsstring)
| MsgNoAsset                    (* 'Could not find any assets starting with ...' *)
| MsgNoAssetsInRelease          (* 'Warning: No assets found for the latest release ...' *)
| MsgApiParseError              (* 'Error parsing JSON.' *)
| MsgApiStatus (status : Z)     (* 'GitHub API request failed with status ...' *)
| MsgApiTransport               (* 'Error fetching release data.' *)
| MsgUnhandled                  (* 'Unhandled error:' *)
| MsgInvalidUrl                 (* 'Provide a valid file url!' *)
| MsgNoDownloadDir (dir : jsstring)
| MsgTooManyRedirects           (* '[downloadAsset]: Too many redirects' *)
| MsgDownloaded (redirects : Z) (path : jsstring)
| MsgWriteStreamError           (* 'Error writing file: ...' *)
| MsgDownloadStatus (status : Z)
| MsgDownloadTransport          (* 'Error during download: ...' *)
| MsgCouldNotDownload           (* 'Could not download ...' *)
| MsgNoArchive                  (* 'Archive file does not exist!' *)
| MsgNoDestination              (* 'Destination directory does not exist!' *)
| MsgTraversal (filePath : jsstring)   (* 'Attempted path traversal: ...' *)
| MsgStreamError                (* 'Error during "<source>"' *)
| MsgUnpacked (count : nat) (dir : jsstring)
| MsgRemoveError.               (* the error printed when the archive cannot be removed *)

(** Regular files with their content, directories, and the console. *)
Record world := World {
  files : gmap jsstring jsstring;
  dirs : gset jsstring;
  console : list message;
}.

Definition log (m : message) (w : world) : world :=
  {| files := files w; dirs := dirs w; console := console w ++ [m] |}.

Definition put_file (p data : jsstring) (w : world) : world :=
  {| files := <[p := data]> (files w); dirs := dirs w; console := console w |}.

Definition drop_file (p : jsstring) (w : world) : world :=
  {| files := delete p (files w); dirs := dirs w; console := console w |}.

(** [fs.existsSync(v)]: true for an existing file or directory; an
    argument that is no path (a boolean, [undefined]) gives [false]. *)
Definition existsSync (w : world) (v : value) : bool :=
  match v with
  | VString p => bool_decide (p ∈ dom (files w)) || bool_decide (p ∈ dirs w)
  | VBool _ | VUndefined => false
  end.

(** Events of a chain of piped streams.  A stream that fails emits
    ['error']; the last one emits ['finish'] when everything is flushed. *)
Inductive stream := ReadStream | TransformStream | WriteStream.

Inductive stream_event :=
| Finish
| ErrorOn (s : stream).

(** Event dispatch on the chain: ['finish'] calls its listener with no
    argument (so a parameter of the listener is [undefined], here
    [None]); an ['error'] on a stream without an ['error'] listener is
    thrown. *)
Definition dispatch {A} (on_finish : option unit -> A)
    (on_error : stream -> option A) (uncaught : A) (ev : stream_event) : A :=
  match ev with
  | Finish => on_finish None
  | ErrorOn s => match on_error s with Some a => a | None => uncaught end
  end.

(** ** The katakana form of a reading (convert.js, line 73) *)

(** The character class [\u3040-\u309F] of the pattern. *)
Definition in_hiragana_block (c : Z) : bool := (0x3040 <=? c) && (c <=? 0x309F).

(** [text.replace(/[\u3040-\u309F]/g, m => String.fromCharCode(m.charCodeAt(0) + 0x60))]:
    the pattern has no [u] flag, so it is matched against single code
    units, and every match is replaced. *)
Definition replace_hiragana (text : jsstring) : jsstring :=
  List.map (fun c => if in_hiragana_block c
                     then fromCharCode (charCodeAt0 c + 0x60) else c) text.

(** The specification's wording, on code points: shift the block
    U+3040..U+309F by 0x60 and leave the rest. *)
Definition shift_codepoint (cp : Z) : Z :=
  if (0x3040 <=? cp) && (cp <=? 0x309F) then cp + 0x60 else cp.

(** ** Data of the dictionary indexer (convert.js) *)

(** An element of [entry.kanji] or [entry.kana]: an object with a [text]. *)
Record element := Element { text : jsstring }.

(** A source entry; either sequence may be absent. *)
Record entry := Entry {
  entry_kanji : option (list element);
  entry_kana : option (list element);
}.

(** The parsed source dictionary. *)
Record jmdict := Jmdict {
  jm_version : jsstring;
  jm_dictDate : jsstring;
  jm_words : list entry;
}.

(** A bucket of [h2kk]: [{ katakana: new Set(), kanji: new Set() }]. *)
Record bucket := Bucket {
  katakana : jsset;
  kanji : jsset;
}.

(** A bucket of the output: the two sets spread into arrays. *)
Record word := Word {
  word_katakana : list jsstring;
  word_kanji : list jsstring;
}.

Record output := Output {
  out_version : jsstring;
  out_dictDate : jsstring;
  out_words : gmap jsstring word;
}.

(** ** Data of the release updater *)

(** An asset of a release, as the metadata lists it. *)
Record asset := Asset {
  asset_name : jsstring;
  browser_download_url : jsstring;
}.

(** The release metadata; [assets] may be absent. *)
Record release := Release { assets : option (list asset) }.

(** What [JSON.parse] returns, as far as the scripts look at it: [null],
    an object with a [words] array (the dictionary), another object (the
    release metadata, with or without [assets]), or any other value. *)
Inductive json :=
| JNull
| JDictionary (d : jmdict)
| JRelease (r : release)
| JOther.

(** What [https.get(url, options, callback)] leads to. *)
Inductive http_result :=
| HttpThrows                     (* the call itself throws: not a valid URL *)
| HttpError                      (* the request emits ['error'] *)
| HttpResponse (statusCode : Z) (location : option jsstring) (body : jsstring).

Inductive entry_type := File | Directory | SymbolicLink | Link | OtherType.

Record tar_entry := TarEntry {
  entry_path : jsstring;
  entry_type_of : entry_type;
  entry_body : jsstring;
}.

(** What the chain read -> gunzip -> tar delivers, in order: an entry, or
    the failure of one of the three streams. *)
Inductive archive_item :=
| Item (e : tar_entry)
| Failure (s : stream).

(** ** The environment of a run *)

(** The script directory, the command line, the JSON codec, the
    compressor, the network, the archive reader, and which file
    operations fail. *)
Record env := Env {
  __dirname : jsstring;
  _tagArg : option jsstring;                     (* [process.argv[2]] *)
  JSON_parse : jsstring -> option json;          (* [None]: a [SyntaxError] *)
  JSON_stringify : output -> jsstring;
  gzip_bytes : jsstring -> jsstring;
  read_error : jsstring -> bool;
  write_error : jsstring -> bool;
  rm_error : jsstring -> bool;
  gzip_stage : stream_event;                     (* how the compression chain ends *)
  gzip_partial : option jsstring;                (* what a failed chain leaves behind *)
  encodeURIComponent : jsstring -> option jsstring;   (* [None]: a [URIError] *)
  https_get : jsstring -> http_result;
  url_basename : jsstring -> option jsstring;    (* [path.basename(new URL(u).pathname)] *)
  untar : jsstring -> list archive_item;
  tar_accepts : tar_entry -> bool;               (* the entries [tar] itself agrees to write *)
}.

(** ** The indexer's functions *)

(** [xs.forEach(f)] where [f] updates an accumulator and may throw
    ([None]): the first exception ends the loop. *)
Fixpoint forEach {A S} (f : S -> A -> option S) (xs : list A) (s : S) : option S :=
  match xs with
  | [] => Some s
  | x :: xs' => match f s x with
                | Some s' => forEach f xs' s'
                | None => None
                end
  end.

(** The body of [kanaElements.forEach] (lines 72-79).  [h2kk[hiragana]]
    on the plain object [h2kk] also finds the members of
    [Object.prototype]; those are truthy, so no bucket is made, and they
    have no [katakana], so [.katakana.add] throws a [TypeError]. *)
Definition add_kana (kanjiList : list jsstring)
    (h2kk : gmap jsstring bucket) (kana : element) : option (gmap jsstring bucket) :=
  let hiragana := text kana in
  let katakana_form := replace_hiragana (text kana) in
  if inherited hiragana then None
  else
    let h2kk :=
      match h2kk !! hiragana with
      | None => <[hiragana := {| katakana := []; kanji := [] |}]> h2kk
      | Some _ => h2kk
      end in
    match h2kk !! hiragana with
    | Some b =>
        Some (<[hiragana := {| katakana := set_add (katakana b) katakana_form;
                               kanji := set_add_all (kanji b) kanjiList |}]> h2kk)
    | None => None
    end.

(** The body of [jmdictData.words.forEach] (lines 66-80). *)
Definition add_entry (h2kk : gmap jsstring bucket) (e : entry)
  : option (gmap jsstring bucket) :=
  let kanjiElements := default [] (entry_kanji e) in
  let kanaElements := default [] (entry_kana e) in
  let kanjiList := List.map text kanjiElements in
  forEach (add_kana kanjiList) kanaElements h2kk.

(** Lines 63-81: [None] when the loop throws. *)
Definition build_h2kk (jmdictData : jmdict) : option (gmap jsstring bucket) :=
  forEach add_entry (jm_words jmdictData) ∅.

(** [Object.entries(h2kk).map(([key, value]) => [key, {...}])] *)
Definition spread_entries (h2kk : gmap jsstring bucket) : list (jsstring * word) :=
  List.map (fun kv => (fst kv, {| word_katakana := katakana (snd kv);
                                  word_kanji := kanji (snd kv) |}))
           (map_to_list h2kk).

(** Lines 83-96. *)
Definition finalOutput (jmdictData : jmdict) (h2kk : gmap jsstring bucket) : output :=
  {| out_version := jm_version jmdictData;
     out_dictDate := jm_dictDate jmdictData;
     out_words := list_to_map (spread_entries h2kk) |}.

Definition dataFolder : jsstring := lit "../data".
Definition releaseFolder : jsstring := lit "../release".
Definition outputFileName : jsstring := lit "simple.min.json".
Definition createGzipVersion : bool := true.

(** [fs.readFile(p, 'utf8', cb)]: the content, or an error. *)
Definition readFile (E : env) (w : world) (p : jsstring) : option jsstring :=
  if read_error E p then None else files w !! p.

(** [fs.writeFile(p, data, 'utf8', cb)]: the world with the file, or an
    error (also when [p] is a directory). *)
Definition writeFile (E : env) (w : world) (p data : jsstring) : option world :=
  if write_error E p || bool_decide (p ∈ dirs w) then None
  else Some (put_file p data w).

(** Lines 108-118: [input.pipe(gzip).pipe(output).on('finish', cb)].
    Only ['finish'] has a listener; no stream of the chain has an
    ['error'] listener. *)
Definition compress (E : env) (outputFilePath gzippedOutputFilePath : jsstring)
    (w : world) : settled bool * world :=
  dispatch
    (fun error =>
       let w := match files w !! outputFilePath with
                | Some plain => put_file gzippedOutputFilePath (gzip_bytes E plain) w
                | None => w
                end in
       match error with
       | Some _ => (Resolved false, log MsgCompressError w)
       | None => (Resolved true, log (MsgGzSaved gzippedOutputFilePath) w)
       end)
    (fun _ => None)
    (Uncaught,
     match gzip_partial E with
     | Some part => put_file gzippedOutputFilePath part w
     | None => w
     end)
    (gzip_stage E).

(** The three paths of lines 38-40. *)
Definition inputFilePath (E : env) (fileName : jsstring) : jsstring :=
  Path.join [__dirname E; dataFolder; fileName].

Definition outputFilePath (E : env) : jsstring :=
  Path.join [__dirname E; releaseFolder; outputFileName].

Definition gzippedOutputFilePath (E : env) : jsstring :=
  outputFilePath E ++ lit ".gz".

(** [convert(fileName)] (lines 30-126).  Nothing between [try] and the
    first callback throws, so the [catch] of line 121 is never entered;
    what a callback throws is not caught by it. *)
Definition convert (E : env) (fileName : value) (w : world)
  : settled bool * world :=
  match fileName with
  | VString ((_ :: _) as fileName) =>
      let w := log (MsgConverting fileName) w in
      if Bool.eqb (existsSync w (VString (inputFilePath E fileName))) false
      then (Resolved false, log MsgInputMissing w)
      else if existsSync w (VBool (strict_eq (VString releaseFolder) (VBool false)))
      then (Resolved false, log MsgReleaseFolderMissing w)
      else
        match readFile E w (inputFilePath E fileName) with
        | None => (Resolved false, log MsgReadError w)
        | Some data =>
            match JSON_parse E data with
            | None => (Resolved false, log MsgParseError w)
            | Some (JNull | JRelease _ | JOther) => (Uncaught, w)
            | Some (JDictionary jmdictData) =>   (* else [jmdictData.words.forEach] throws *)
                match build_h2kk jmdictData with
                | None => (Uncaught, w)
                | Some h2kk =>
                    let jsonString := JSON_stringify E (finalOutput jmdictData h2kk) in
                    match writeFile E w (outputFilePath E) jsonString with
                    | None => (Resolved false, log MsgWriteError w)
                    | Some w =>
                        let w := log (MsgSaved (outputFilePath E)) w in
                        if Bool.eqb createGzipVersion false then (Resolved true, w)
                        else compress E (outputFilePath E) (gzippedOutputFilePath E) w
                    end
                end
            end
        end
  | _ => (Resolved false, log MsgInvalidFileName w)
  end.

(** The index a run computes from the source file, when it gets that far. *)
Definition indexed (E : env) (fileName : jsstring) (w : world) : option output :=
  data ← readFile E w (inputFilePath E fileName);
  parsed ← JSON_parse E data;
  jmdictData ← (match parsed with JDictionary d => Some d | _ => None end);
  h2kk ← build_h2kk jmdictData;
  Some (finalOutput jmdictData h2kk).

(** ** The release updater (update.js) *)

Definition owner : jsstring := lit "scriptin".
Definition repo : jsstring := lit "jmdict-simplified".
Definition prefix : jsstring := lit "jmdict-all-".
Definition extension : jsstring := lit "json.tgz".

(** [const _tag = (_tagArg) ? _tagArg : 'latest'] *)
Definition _tag (E : env) : jsstring :=
  if truthy_opt (_tagArg E) then default [] (_tagArg E) else lit "latest".

Definition is_2xx (statusCode : Z) : bool := (200 <=? statusCode) && (statusCode <? 300).
Definition is_3xx (statusCode : Z) : bool := (300 <=? statusCode) && (statusCode <? 400).

(** *** getAsset (lines 78-137) *)

(** The predicate given to [releaseData.assets.filter] (lines 102-113). *)
Definition asset_matches (prefix ext : option jsstring) (a : asset) : bool :=
  let filename := asset_name a in
  let prefixMatch :=
    if truthy_opt prefix then startsWith filename (default [] prefix) else true in
  let extensionMatch :=
    if truthy_opt ext then endsWith filename (default [] ext) else true in
  prefixMatch && extensionMatch.

(** Lines 96-118, after [JSON.parse] returned [releaseData] (the
    surrounding [try] catches what these lines throw). *)
Definition select_asset (prefix ext : option jsstring) (releaseData : json) (w : world)
  : option asset * world :=
  match releaseData with
  | JNull => (None, log MsgApiParseError w)      (* [null.assets] throws *)
  | JRelease {| assets := Some (a :: l) |} =>
      match List.filter (asset_matches prefix ext) (a :: l) with
      | m :: _ => (Some m, w)
      | [] => (None, w)
      end
  | JRelease _ | JDictionary _ | JOther => (None, log MsgNoAssetsInRelease w)
  end.

Definition apiUrl (E : env) (owner repo tag : jsstring) : option jsstring :=
  let base := lit "https://api.github.com/repos/" ++ owner ++ lit "/" ++ repo in
  if bool_decide (tag = lit "latest") then Some (base ++ lit "/releases/latest")
  else t ← encodeURIComponent E tag; Some (base ++ lit "/releases/tags/" ++ t).

Definition getAsset (E : env) (owner repo : jsstring) (prefix ext : option jsstring)
    (tag : jsstring) (w : world) : settled (option asset) * world :=
  match apiUrl E owner repo tag with
  | None => (Resolved None, log MsgUnhandled w)
  | Some url =>
      match https_get E url with
      | HttpThrows => (Resolved None, log MsgUnhandled w)
      | HttpError => (Resolved None, log MsgApiTransport w)
      | HttpResponse statusCode _ data =>
          if is_2xx statusCode then
            match JSON_parse E data with
            | None => (Resolved None, log MsgApiParseError w)
            | Some releaseData =>
                let '(r, w) := select_asset prefix ext releaseData w in (Resolved r, w)
            end
          else (Resolved None, log (MsgApiStatus statusCode) w)
      end
  end.

(** *** downloadAsset (lines 146-207) *)

(** The 2xx branch (lines 171-185): stream the body to the file. *)
Definition save_response (E : env) (downloadDir : jsstring) (filename : option jsstring)
    (finalUrl : jsstring) (redirectCount : Z) (body : jsstring) (w : world)
  : settled (option jsstring) * world :=
  match (if truthy_opt filename then filename else url_basename E finalUrl) with
  | None => (Uncaught, w)                        (* [new URL(finalUrl)] throws *)
  | Some fileName =>
      let filePath := Path.join [downloadDir; fileName] in
      if write_error E filePath || bool_decide (filePath ∈ dirs w)
      then (Resolved None, drop_file filePath (log MsgWriteStreamError w))
      else (Resolved (Some filePath),
            log (MsgDownloaded redirectCount filePath) (put_file filePath body w))
  end.

(** [doDownload(downloadURL, redirectCount)] (lines 158-199).  [None]
    means that [https.get] threw and the exception leaves [doDownload];
    inside the response callback nothing catches it. *)
Equations? doDownload (E : env) (downloadDir : jsstring) (filename : option jsstring)
    (w : world) (downloadURL : jsstring) (redirectCount : Z)
  : option (settled (option jsstring) * world)
  by wf (Z.to_nat (6 - redirectCount)) lt :=
doDownload E downloadDir filename w downloadURL redirectCount
  with Z_gt_dec redirectCount 5 := {
  | left _ => Some (Resolved None, log MsgTooManyRedirects w)
  | right _ =>
      match https_get E downloadURL with
      | HttpThrows => None
      | HttpError => Some (Resolved None, log MsgDownloadTransport w)
      | HttpResponse statusCode location body =>
          if is_2xx statusCode
          then Some (save_response E downloadDir filename downloadURL redirectCount body w)
          else if is_3xx statusCode && truthy_opt location
          then match doDownload E downloadDir filename w (default [] location)
                       (redirectCount + 1) with
               | Some r => Some r
               | None => Some (Uncaught, w)
               end
          else Some (Resolved None, log (MsgDownloadStatus statusCode) w)
      end
  }.
Proof. lia. Qed.

Definition downloadAsset (E : env) (fileUrl : value) (downloadDir : jsstring)
    (filename : option jsstring) (w : world) : settled (option jsstring) * world :=
  match fileUrl with
  | VString ((_ :: _) as fileUrl) =>
      if negb (existsSync w (VString downloadDir))
      then (Resolved None, log (MsgNoDownloadDir downloadDir) w)
      else match doDownload E downloadDir filename w fileUrl 0 with
           | Some r => r
           | None => (Resolved None, log MsgUnhandled w)
           end
  | _ => (Resolved None, log MsgInvalidUrl w)
  end.

(** *** unpackAsset (lines 215-271) *)

(** The [filter] option (lines 238-245): [true] keeps the entry. *)
Definition filter (destinationDir filePath : jsstring) (w : world) : bool * world :=
  let absolutePath := Path.join [destinationDir; filePath] in
  if negb (startsWith absolutePath destinationDir)
  then (false, log (MsgTraversal filePath) w)
  else (true, w).

(** The [onentry] option (lines 233-237). *)
Definition onentry (filenames : list jsstring) (e : tar_entry) : list jsstring :=
  match entry_type_of e with
  | File | Directory => filenames ++ [entry_path e]
  | _ => filenames
  end.

(** What [tar.extract] writes for an entry it unpacks under [cwd]. *)
Definition unpack_entry (E : env) (cwd : jsstring) (e : tar_entry) (w : world) : world :=
  if tar_accepts E e then
    match entry_type_of e with
    | File => put_file (Path.join [cwd; entry_path e]) (entry_body e) w
    | Directory => {| files := files w;
                      dirs := {[ Path.join [cwd; entry_path e] ]} ∪ dirs w;
                      console := console w |}
    | _ => w
    end
  else w.

(** The extraction chain over the items of the archive: an entry is
    first shown to [filter]; a kept entry is announced to [onentry] and
    unpacked; the first failure runs [handleError], which aborts the
    chain and resolves [null]; at the end ['finish'] resolves the
    collected names. *)
Fixpoint extract (E : env) (destinationDir : jsstring) (items : list archive_item)
    (filenames : list jsstring) (w : world) : settled (option (list jsstring)) * world :=
  match items with
  | [] => (Resolved (Some filenames), log (MsgUnpacked (length filenames) destinationDir) w)
  | Failure _ :: _ => (Resolved None, log MsgStreamError w)
  | Item e :: rest =>
      let '(keep, w) := filter destinationDir (entry_path e) w in
      if keep
      then extract E destinationDir rest (onentry filenames e)
             (unpack_entry E destinationDir e w)
      else extract E destinationDir rest filenames w
  end.

Definition unpackAsset (E : env) (tarGzFilePath destinationDir : jsstring) (w : world)
  : settled (option (list jsstring)) * world :=
  if Bool.eqb (existsSync w (VString tarGzFilePath)) false
  then (Resolved None, log MsgNoArchive w)
  else if Bool.eqb (existsSync w (VString destinationDir)) false
  then (Resolved None, log MsgNoDestination w)
  else
    match files w !! tarGzFilePath with
    | Some archive => extract E destinationDir (untar E archive) [] w
    | None => (Resolved None, log MsgStreamError w)   (* a directory: the read fails *)
    end.

(** *** update (lines 35-66) *)

(** [await p] followed by the rest of the function. *)
Definition await {A B} (p : settled A * world)
    (k : A -> world -> settled B * world) : settled B * world :=
  match p with
  | (Resolved a, w) => k a w
  | (Uncaught, w) => (Uncaught, w)
  end.

(** Line 65: [(Array.isArray(files) && files.length > 0) ? files[0] : null] *)
Definition first_extracted (files : option (list jsstring)) : option jsstring :=
  match files with
  | Some (f :: _) => Some f
  | Some [] | None => None
  end.

Definition update (E : env) (tag : value) (w : world) : settled (option jsstring) * world :=
  let tag := match tag with VUndefined => VString (_tag E) | _ => tag end in
  match tag with
  | VString tag =>
      let w := log (MsgUpdating tag) w in
      await (getAsset E owner repo (Some prefix) (Some extension) tag w) (fun asset w =>
      match asset with
      | None => (Resolved None, log MsgNoAsset w)
      | Some asset =>
          let url := browser_download_url asset in
          let fileName := asset_name asset in
          let outputFolder := Path.join [__dirname E; dataFolder] in
          await (downloadAsset E (VString url) outputFolder (Some fileName) w) (fun file w =>
          match file with
          | None => (Resolved None, log MsgCouldNotDownload w)
          | Some file =>
              await (unpackAsset E file outputFolder w) (fun files w =>
              let filePath := Path.join [outputFolder; fileName] in
              if existsSync w (VString filePath) then
                if rm_error E filePath || bool_decide (filePath ∈ dirs w)
                then (Resolved None, log MsgRemoveError w)
                else (Resolved (first_extracted files), drop_file filePath w)
              else (Resolved (first_extracted files), w))
          end)
      end)
  | _ => (Resolved None, log MsgInvalidTag w)
  end.

(** *** build.js *)

Definition build (E : env) (tagArg : value) (w : world) : settled bool * world :=
  await (update E tagArg w) (fun filename w =>
  match filename with
  | None => (Resolved false, w)
  | Some filename => convert E (VString filename) w
  end).

(** ** Vocabulary of the properties and sample data *)

(** Sample strings: the reading a-i in hiragana and in katakana, and the
    kanji spelling U+611B. *)
Definition s_ai_hira : jsstring := [0x3042; 0x3044].
Definition s_ai_kata : jsstring := [0x30A2; 0x30A4].
Definition s_ai_kanji : jsstring := [0x611B].

(** What one reading does to its bucket. *)
Definition grow (kanjiList : list jsstring) (katakana_form : jsstring) (b : bucket) : bucket :=
  {| katakana := set_add (katakana b) katakana_form;
     kanji := set_add_all (kanji b) kanjiList |}.

Definition empty_bucket : bucket := {| katakana := []; kanji := [] |}.

Definition deduplicated (h : gmap jsstring bucket) : Prop :=
  ∀ k b, h !! k = Some b → NoDup (katakana b) ∧ NoDup (kanji b).

(** The output buckets are the buckets of [h2kk] with their sets spread. *)
Definition spread (b : bucket) : word :=
  {| word_katakana := katakana b; word_kanji := kanji b |}.

(** A reading that was added has its katakana form and the kanji list of
    its entry in its bucket. *)
Definition covers (h : gmap jsstring bucket) (kanjiList : list jsstring) (kana : element) : Prop :=
  inherited (text kana) = false ∧
  ∃ b, h !! text kana = Some b ∧
       replace_hiragana (text kana) ∈ katakana b ∧
       ∀ x, x ∈ kanjiList → x ∈ kanji b.

(** A two-entry dictionary: the same reading twice, with the same kanji. *)
Definition sample_entry : entry :=
  {| entry_kanji := Some [Element s_ai_kanji]; entry_kana := Some [Element s_ai_hira] |}.

Definition sample_dict : jmdict :=
  {| jm_version := lit "1"; jm_dictDate := lit "2024-01-01";
     jm_words := [sample_entry; sample_entry] |}.

Definition sample_h2kk : gmap jsstring bucket :=
  {[ s_ai_hira := {| katakana := [s_ai_kata]; kanji := [s_ai_kanji] |} ]}.

(** Where the kanji of an index come from: every kanji of a bucket is a
    kanji of an entry, among those [P] holds of, that has the bucket's
    key as a reading. *)
Definition kanji_from (P : entry → Prop) (h : gmap jsstring bucket) : Prop :=
  ∀ key b k, h !! key = Some b → k ∈ kanji b →
    ∃ e kana, P e ∧ kana ∈ default [] (entry_kana e) ∧ text kana = key ∧
              k ∈ List.map text (default [] (entry_kanji e)).

(** An entry without reading, and a dictionary in which its kanji is
    also the kanji of an entry with a reading. *)
Definition kanji_only_entry : entry :=
  {| entry_kanji := Some [Element s_ai_kanji]; entry_kana := None |}.

Definition shared_kanji_dict : jmdict :=
  {| jm_version := lit "1"; jm_dictDate := lit "2024-01-01";
     jm_words := [kanji_only_entry; sample_entry] |}.

(** Two [words] mappings agree up to the order inside the arrays. *)
Definition same_words (m1 m2 : gmap jsstring word) : Prop :=
  dom m1 = dom m2 ∧
  ∀ key a b, m1 !! key = Some a → m2 !! key = Some b →
    word_katakana a ≡ₚ word_katakana b ∧ word_kanji a ≡ₚ word_kanji b.

(** A run with a toy codec: the file [dict.json] parses to the sample
    dictionary, the serializer lists the keys, the compressor reverses. *)
Definition sample_env : env :=
  {| __dirname := lit "/repo/src";
     _tagArg := None;
     JSON_parse := λ s, if bool_decide (s = lit "{dict}")
                        then Some (JDictionary sample_dict) else None;
     JSON_stringify := λ o, out_version o ++ out_dictDate o ++
                            List.concat (map_to_list (out_words o)).*1;
     gzip_bytes := λ s, rev s;
     read_error := λ _, false;
     write_error := λ _, false;
     rm_error := λ _, false;
     gzip_stage := Finish;
     gzip_partial := None;
     encodeURIComponent := Some;
     https_get := λ _, HttpError;
     url_basename := λ _, None;
     untar := λ _, [];
     tar_accepts := λ _, true |}.

Definition sample_world : world :=
  {| files := {[ lit "/repo/data/dict.json" := lit "{dict}" ]};
     dirs := {[ lit "/repo/data"; lit "/repo/release" ]};
     console := [] |}.

Definition sample_world_after : world :=
  (convert sample_env (VString (lit "dict.json")) sample_world).2.

(** [w'] has the console of [w] followed by lines that do not report a
    missing release folder. *)
Definition quiet_extension (w w' : world) : Prop :=
  ∃ lines, console w' = console w ++ lines ∧ MsgReleaseFolderMissing ∉ lines.

(** The release folder is missing and writing into it fails. *)
Definition no_release_env : env :=
  {| __dirname := __dirname sample_env; _tagArg := _tagArg sample_env;
     JSON_parse := JSON_parse sample_env; JSON_stringify := JSON_stringify sample_env;
     gzip_bytes := gzip_bytes sample_env; read_error := read_error sample_env;
     write_error := λ p, startsWith p (lit "/repo/release/");
     rm_error := rm_error sample_env;
     gzip_stage := ErrorOn WriteStream; gzip_partial := None;
     encodeURIComponent := encodeURIComponent sample_env;
     https_get := https_get sample_env; url_basename := url_basename sample_env;
     untar := untar sample_env; tar_accepts := tar_accepts sample_env |}.

Definition no_release_world : world :=
  {| files := {[ lit "/repo/data/dict.json" := lit "{dict}" ]};
     dirs := {[ lit "/repo/data" ]};
     console := [] |}.

(** The sample run with a compressed file that cannot be written. *)
Definition gzip_failing_env : env :=
  {| __dirname := __dirname sample_env; _tagArg := _tagArg sample_env;
     JSON_parse := JSON_parse sample_env; JSON_stringify := JSON_stringify sample_env;
     gzip_bytes := gzip_bytes sample_env; read_error := read_error sample_env;
     write_error := write_error sample_env; rm_error := rm_error sample_env;
     gzip_stage := ErrorOn WriteStream; gzip_partial := None;
     encodeURIComponent := encodeURIComponent sample_env;
     https_get := https_get sample_env; url_basename := url_basename sample_env;
     untar := untar sample_env; tar_accepts := tar_accepts sample_env |}.

(** The specification's filter: a bound is absent ([null], [undefined] or
    empty) or the name starts, respectively ends, with it. *)
Definition absent (o : option jsstring) : Prop := o = None ∨ o = Some [].

Definition name_matches (prefix ext : option jsstring) (a : asset) : Prop :=
  (absent prefix ∨ ∃ p t, prefix = Some p ∧ asset_name a = p ++ t) ∧
  (absent ext ∨ ∃ x t, ext = Some x ∧ asset_name a = t ++ x).

(** [n] redirect hops lead from [url] to [final]: each request is
    answered by a 3xx response with a non-empty [Location], which is the
    next URL. *)
Fixpoint redirects (E : env) (n : nat) (url final : jsstring) : Prop :=
  match n with
  | O => url = final
  | S n' => ∃ statusCode location body,
      https_get E url = HttpResponse statusCode (Some location) body ∧
      is_3xx statusCode = true ∧ location ≠ [] ∧
      redirects E n' location final
  end.

(** A server that redirects [k] times, from URL [0] to URL [k], and then
    answers 200. *)
Definition hop_env (k : Z) : env :=
  {| __dirname := __dirname sample_env; _tagArg := _tagArg sample_env;
     JSON_parse := JSON_parse sample_env; JSON_stringify := JSON_stringify sample_env;
     gzip_bytes := gzip_bytes sample_env; read_error := read_error sample_env;
     write_error := write_error sample_env; rm_error := rm_error sample_env;
     gzip_stage := gzip_stage sample_env; gzip_partial := gzip_partial sample_env;
     encodeURIComponent := encodeURIComponent sample_env;
     https_get := λ url,
       match url with
       | [i] => if i <? k then HttpResponse 302 (Some [i + 1]) []
                else HttpResponse 200 None (lit "archive")
       | _ => HttpError
       end;
     url_basename := url_basename sample_env;
     untar := untar sample_env; tar_accepts := tar_accepts sample_env |}.

(** A path that is the destination directory or lies below it. *)
Definition within (destinationDir p : jsstring) : bool :=
  bool_decide (p = destinationDir) || startsWith p (destinationDir ++ [Path.slash]).

Definition passwd_entry : tar_entry :=
  {| entry_path := lit "../../etc/passwd"; entry_type_of := File; entry_body := lit "root" |}.

Definition json_entry : tar_entry :=
  {| entry_path := lit "jmdict-all-3.5.0.json"; entry_type_of := File;
     entry_body := lit "{dict}" |}.

(** An entry that leaves the destination directory for a sibling whose
    name starts with the name of the destination. *)
Definition sibling_entry : tar_entry :=
  {| entry_path := lit "../data-evil/x"; entry_type_of := File; entry_body := lit "payload" |}.

Definition release_body : jsstring := lit "{release}".
Definition archive_body : jsstring := lit "archive".

Definition zip_asset : asset :=
  {| asset_name := lit "jmdict-eng-3.5.0.json.zip";
     browser_download_url := lit "https://host/eng.zip" |}.

Definition tgz_asset : asset :=
  {| asset_name := lit "jmdict-all-3.5.0.json.tgz";
     browser_download_url := lit "https://host/all.tgz" |}.

(** A release with two assets, a download that is redirected once, and
    an archive with the given items. *)
Definition release_env (items : list archive_item) : env :=
  {| __dirname := lit "/repo/src";
     _tagArg := None;
     JSON_parse := λ s,
       if bool_decide (s = release_body)
       then Some (JRelease {| assets := Some [zip_asset; tgz_asset] |})
       else JSON_parse sample_env s;
     JSON_stringify := JSON_stringify sample_env;
     gzip_bytes := gzip_bytes sample_env;
     read_error := λ _, false;
     write_error := λ _, false;
     rm_error := λ _, false;
     gzip_stage := Finish;
     gzip_partial := None;
     encodeURIComponent := Some;
     https_get := λ url,
       if bool_decide (url = lit "https://api.github.com/repos/scriptin/jmdict-simplified/releases/latest")
       then HttpResponse 200 None release_body
       else if bool_decide (url = lit "https://host/all.tgz")
       then HttpResponse 302 (Some (lit "https://cdn/all.tgz")) []
       else if bool_decide (url = lit "https://cdn/all.tgz")
       then HttpResponse 200 None archive_body
       else HttpResponse 404 None [];
     url_basename := λ _, None;
     untar := λ _, items;
     tar_accepts := λ _, true |}.

Definition release_world : world :=
  {| files := ∅; dirs := {[ lit "/repo/data"; lit "/repo/release" ]}; console := [] |}.

Definition folder_entry : tar_entry :=
  {| entry_path := lit "jmdict/"; entry_type_of := Directory; entry_body := [] |}.

Definition nested_json_entry : tar_entry :=
  {| entry_path := lit "jmdict/jmdict-all-3.5.0.json"; entry_type_of := File;
     entry_body := lit "{dict}" |}.

(** The first file-type entry among the entries of an archive. *)
Definition first_file (entries : list tar_entry) : option jsstring :=
  match List.filter (λ e, match entry_type_of e with File => true | _ => false end) entries with
  | e :: _ => Some (entry_path e)
  | [] => None
  end.

(** No reading names a member of [Object.prototype]. *)
Definition own_readings (words : list entry) : Prop :=
  ∀ e kana, e ∈ words → kana ∈ default [] (entry_kana e) → inherited (text kana) = false.

(** [key] is a reading of an entry of [words]. *)
Definition reading_of (words : list entry) (key : jsstring) : Prop :=
  ∃ e kana, e ∈ words ∧ kana ∈ default [] (entry_kana e) ∧ text kana = key.

(** An entry of [words] with the reading [key] lists the kanji [k]. *)
Definition lists_kanji (words : list entry) (key k : jsstring) : Prop :=
  ∃ e kana, e ∈ words ∧ kana ∈ default [] (entry_kana e) ∧ text kana = key ∧
            k ∈ List.map text (default [] (entry_kanji e)).

(** Every bucket holds the one katakana form of its key, and its key is
    a reading of an entry that [P] holds of. *)
Definition keyed_from (P : entry → Prop) (h : gmap jsstring bucket) : Prop :=
  ∀ key b, h !! key = Some b →
    katakana b = [replace_hiragana key] ∧
    ∃ e kana, P e ∧ kana ∈ default [] (entry_kana e) ∧ text kana = key.

(** Two entries with the same reading and different kanji. *)
Definition love_entry : entry :=
  {| entry_kanji := Some [Element [0x611B]]; entry_kana := Some [Element s_ai_hira] |}.

Definition indigo_entry : entry :=
  {| entry_kanji := Some [Element [0x85CD]]; entry_kana := Some [Element s_ai_hira] |}.

(** A dictionary with a reading that names a member of
    [Object.prototype], and an environment that parses to it. *)
Definition constructor_dict : jmdict :=
  {| jm_version := lit "1"; jm_dictDate := lit "2024-01-01";
     jm_words := [sample_entry;
                  {| entry_kanji := None;
                     entry_kana := Some [Element (lit "constructor")] |}] |}.

Definition constructor_env : env :=
  {| __dirname := __dirname sample_env; _tagArg := _tagArg sample_env;
     JSON_parse := λ _, Some (JDictionary constructor_dict);
     JSON_stringify := JSON_stringify sample_env;
     gzip_bytes := gzip_bytes sample_env; read_error := read_error sample_env;
     write_error := write_error sample_env; rm_error := rm_error sample_env;
     gzip_stage := gzip_stage sample_env; gzip_partial := gzip_partial sample_env;
     encodeURIComponent := encodeURIComponent sample_env;
     https_get := https_get sample_env; url_basename := url_basename sample_env;
     untar := untar sample_env; tar_accepts := tar_accepts sample_env |}.

(** The entries the guard keeps, and those [onentry] collects. *)
Definition kept (destinationDir : jsstring) (e : tar_entry) : bool :=
  startsWith (Path.join [destinationDir; entry_path e]) destinationDir.

Definition reported (e : tar_entry) : bool :=
  match entry_type_of e with File | Directory => true | _ => false end.

(** What [doDownload] may leave behind, by the result it resolves. *)
Definition download_outcome (E : env) (downloadDir : jsstring) (filename : option jsstring)
    (w : world) (r : settled (option jsstring) * world) : Prop :=
  dirs r.2 = dirs w ∧
  match r.1 with
  | Resolved (Some filePath) =>
      ∃ finalUrl statusCode location body fileName,
        https_get E finalUrl = HttpResponse statusCode location body ∧
        is_2xx statusCode = true ∧
        (if truthy_opt filename then filename else url_basename E finalUrl) = Some fileName ∧
        filePath = Path.join [downloadDir; fileName] ∧
        files r.2 = <[filePath := body]> (files w)
  | Resolved None => ∀ p c, files r.2 !! p = Some c → files w !! p = Some c
  | Uncaught => files r.2 = files w
  end.

(** An archive with a rejected entry, a directory, a link and a file. *)
Definition mixed_archive : list archive_item :=
  [ Item passwd_entry; Item folder_entry;
    Item {| entry_path := lit "jmdict/latest"; entry_type_of := SymbolicLink;
            entry_body := [] |};
    Item nested_json_entry ].

Definition archive_world : world :=
  {| files := {[ lit "/repo/data/all.tgz" := archive_body ]};
     dirs := {[ lit "/repo/data" ]}; console := [] |}.

(* ===================================================================== *)
(** * Properties *)
(* ===================================================================== *)

(** ** The katakana form *)

Lemma replace_hiragana_app (s t : jsstring) :
  replace_hiragana (s ++ t) = replace_hiragana s ++ replace_hiragana t.
Proof. unfold replace_hiragana. apply List.map_app. Qed.

Lemma replace_hiragana_units (cp : Z) :
  replace_hiragana (utf16_units cp) = utf16_units (shift_codepoint cp).
Proof.
  unfold utf16_units, shift_codepoint, replace_hiragana, in_hiragana_block,
    fromCharCode, charCodeAt0.
  destruct (cp <? 0x10000) eqn:Hlow.
  - pose proof (proj1 (Z.ltb_lt _ _) Hlow) as Hlt. cbn [List.map].
    destruct ((0x3040 <=? cp) && (cp <=? 0x309F)) eqn:Hin.
    + apply andb_prop in Hin as [H1 H2].
      apply Z.leb_le in H1. apply Z.leb_le in H2.
      replace (cp + 0x60 <? 0x10000) with true by (symmetry; apply Z.ltb_lt; lia).
      rewrite Z.mod_small by lia. reflexivity.
    + rewrite Hlow. reflexivity.
  - pose proof (proj1 (Z.ltb_ge _ _) Hlow) as Hge.
    replace ((0x3040 <=? cp) && (cp <=? 0x309F)) with false
      by (symmetry; apply andb_false_iff; right; apply Z.leb_gt; lia).
    rewrite Hlow. cbn [List.map].
    assert (Hhi : 0 <= Z.shiftr (cp - 0x10000) 10)
      by (apply Z.shiftr_nonneg; lia).
    assert (Hlo : 0 <= Z.land (cp - 0x10000) 0x3FF)
      by (apply Z.land_nonneg; right; lia).
    replace (0xD800 + Z.shiftr (cp - 0x10000) 10 <=? 0x309F) with false
      by (symmetry; apply Z.leb_gt; lia).
    replace (0xDC00 + Z.land (cp - 0x10000) 0x3FF <=? 0x309F) with false
      by (symmetry; apply Z.leb_gt; lia).
    rewrite !andb_false_r. reflexivity.
Qed.

(** C1: the katakana form shifts exactly the code points of the block
    U+3040..U+309F by 0x60 and leaves every other code point (also those
    encoded as surrogate pairs) unchanged; the hiragana string U+3042 U+3044
    becomes the katakana string U+30A2 U+30A4, and ABC stays ABC. *)
Theorem C1_katakana_shift :
  (forall cps : list Z,
      replace_hiragana (utf16 cps) = utf16 (List.map shift_codepoint cps)) /\
  (forall text : jsstring,
      replace_hiragana text = List.map shift_codepoint text) /\
  replace_hiragana s_ai_hira = s_ai_kata /\
  replace_hiragana (lit "ABC") = lit "ABC".
Proof.
  split; [|split; [|split; reflexivity]].
  - induction cps as [|cp cps IH]; [reflexivity|].
    unfold utf16 in *. cbn [List.map List.concat].
    rewrite replace_hiragana_app, replace_hiragana_units, IH. reflexivity.
  - intros text. unfold replace_hiragana. apply List.map_ext_in.
    intros c _. unfold shift_codepoint, in_hiragana_block, fromCharCode, charCodeAt0.
    destruct ((0x3040 <=? c) && (c <=? 0x309F)) eqn:Hin; [|reflexivity].
    apply andb_prop in Hin as [H1 H2].
    apply Z.leb_le in H1. apply Z.leb_le in H2.
    apply Z.mod_small. lia.
Qed.

(** ** JavaScript sets *)

Lemma elem_of_set_add (s : jsset) (x y : jsstring) :
  y ∈ set_add s x ↔ y ∈ s ∨ y = x.
Proof.
  unfold set_add, set_has. case_bool_decide as Hin.
  - split; [by left | intros [?| ->]; done].
  - rewrite elem_of_app, list_elem_of_singleton. done.
Qed.

Lemma NoDup_set_add (s : jsset) (x : jsstring) : NoDup s → NoDup (set_add s x).
Proof.
  intros Hs. unfold set_add, set_has. case_bool_decide as Hin; [done|].
  apply NoDup_app. split_and!; [done | | apply NoDup_singleton].
  intros y Hy ->%list_elem_of_singleton. done.
Qed.

Lemma set_add_member (s : jsset) (x : jsstring) : x ∈ s → set_add s x = s.
Proof. intros Hin. unfold set_add, set_has. by rewrite bool_decide_eq_true_2. Qed.

Lemma elem_of_set_add_all (xs : list jsstring) (s : jsset) (y : jsstring) :
  y ∈ set_add_all s xs ↔ y ∈ s ∨ y ∈ xs.
Proof.
  unfold set_add_all. revert s. induction xs as [|x xs IH]; intros s; simpl.
  - split; [by left | intros [?|Hy]; [done | by apply elem_of_nil in Hy]].
  - rewrite IH, elem_of_set_add, elem_of_cons. tauto.
Qed.

Lemma NoDup_set_add_all (xs : list jsstring) (s : jsset) :
  NoDup s → NoDup (set_add_all s xs).
Proof.
  unfold set_add_all. revert s. induction xs as [|x xs IH]; intros s Hs; simpl; [done|].
  apply IH. by apply NoDup_set_add.
Qed.

Lemma set_add_all_members (xs : list jsstring) (s : jsset) :
  (∀ x, x ∈ xs → x ∈ s) → set_add_all s xs = s.
Proof.
  unfold set_add_all. induction xs as [|x xs IH]; intros Hall; simpl; [done|].
  rewrite set_add_member by (apply Hall; left).
  apply IH. intros y Hy. apply Hall. by right.
Qed.

(** ** The index: buckets without repetition *)

Lemma add_kana_eq (kanjiList : list jsstring) (h2kk : gmap jsstring bucket) (kana : element) :
  inherited (text kana) = false →
  add_kana kanjiList h2kk kana =
    Some (<[text kana := grow kanjiList (replace_hiragana (text kana))
                           (default empty_bucket (h2kk !! text kana))]> h2kk).
Proof.
  intros Hown. unfold add_kana. rewrite Hown.
  destruct (h2kk !! text kana) as [b|] eqn:Hb; simpl.
  - rewrite Hb. done.
  - rewrite lookup_insert_eq, insert_insert_eq. done.
Qed.

Lemma add_kana_inherited (kanjiList : list jsstring) (h2kk : gmap jsstring bucket)
    (kana : element) :
  inherited (text kana) = true → add_kana kanjiList h2kk kana = None.
Proof. intros Hin. unfold add_kana. by rewrite Hin. Qed.

Lemma add_kana_Some (kanjiList : list jsstring) (h h' : gmap jsstring bucket) (kana : element) :
  add_kana kanjiList h kana = Some h' →
  inherited (text kana) = false ∧
  h' = <[text kana := grow kanjiList (replace_hiragana (text kana))
                        (default empty_bucket (h !! text kana))]> h.
Proof.
  intros Hadd. destruct (inherited (text kana)) eqn:Hin.
  - rewrite add_kana_inherited in Hadd by done. done.
  - rewrite add_kana_eq in Hadd by done. by injection Hadd as <-.
Qed.

(** An invariant of the accumulator is an invariant of the loop. *)
Lemma forEach_invariant {A S} (P : S → Prop) (f : S → A → option S) :
  (∀ s x s', P s → f s x = Some s' → P s') →
  ∀ xs s s', P s → forEach f xs s = Some s' → P s'.
Proof.
  intros Hstep. induction xs as [|x xs IH]; intros s s' Hs Hrun; simpl in Hrun.
  - by injection Hrun as <-.
  - destruct (f s x) as [s1|] eqn:Hf; [|done]. eauto.
Qed.

Lemma forEach_app {A S} (f : S → A → option S) (xs ys : list A) (s : S) :
  forEach f (xs ++ ys) s = forEach f xs s ≫= forEach f ys.
Proof.
  revert s. induction xs as [|x xs IH]; intros s; simpl; [done|].
  destruct (f s x); simpl; [apply IH | done].
Qed.

Lemma deduplicated_empty : deduplicated ∅.
Proof. intros k b Hb. by rewrite lookup_empty in Hb. Qed.

Lemma add_kana_deduplicated (kanjiList : list jsstring) (h h' : gmap jsstring bucket)
    (kana : element) :
  deduplicated h → add_kana kanjiList h kana = Some h' → deduplicated h'.
Proof.
  intros Hh [_ ->]%add_kana_Some k b.
  destruct (decide (text kana = k)) as [<-|Hne].
  - rewrite lookup_insert_eq. intros [= <-]. simpl.
    assert (NoDup (katakana (default empty_bucket (h !! text kana))) ∧
            NoDup (kanji (default empty_bucket (h !! text kana)))) as [H1 H2].
    { destruct (h !! text kana) as [b0|] eqn:Hb0; simpl; [by eapply Hh|].
      split; apply NoDup_nil_2. }
    split; [by apply NoDup_set_add | by apply NoDup_set_add_all].
  - rewrite lookup_insert_ne by done. apply Hh.
Qed.

Lemma add_entry_deduplicated (h h' : gmap jsstring bucket) (e : entry) :
  deduplicated h → add_entry h e = Some h' → deduplicated h'.
Proof.
  unfold add_entry. apply forEach_invariant.
  intros s x s'. apply add_kana_deduplicated.
Qed.

Lemma build_h2kk_deduplicated (d : jmdict) (h : gmap jsstring bucket) :
  build_h2kk d = Some h → deduplicated h.
Proof.
  unfold build_h2kk. apply (forEach_invariant deduplicated); [|apply deduplicated_empty].
  intros s x s'. apply add_entry_deduplicated.
Qed.

Lemma out_words_spread (d : jmdict) (h : gmap jsstring bucket) :
  out_words (finalOutput d h) = spread <$> h.
Proof.
  unfold finalOutput, spread_entries. simpl.
  rewrite <- (list_to_map_to_list (spread <$> h)).
  rewrite map_to_list_fmap. f_equal.
Qed.

Lemma spread_entries_keys (h : gmap jsstring bucket) :
  (spread_entries h).*1 = (map_to_list h).*1.
Proof.
  unfold spread_entries. induction (map_to_list h) as [|[k b] l IH]; simpl; [done|].
  f_equal. exact IH.
Qed.

Lemma add_kana_covers (kl : list jsstring) (h h' : gmap jsstring bucket) (kana : element) :
  add_kana kl h kana = Some h' → covers h' kl kana.
Proof.
  intros [Hown ->]%add_kana_Some. split; [done|].
  eexists. rewrite lookup_insert_eq. split; [done|]. simpl. split.
  - apply elem_of_set_add. by right.
  - intros x Hx. apply elem_of_set_add_all. by right.
Qed.

Lemma add_kana_keeps_covers (kl kl0 : list jsstring) (h h' : gmap jsstring bucket)
    (kana kana0 : element) :
  covers h kl0 kana0 → add_kana kl h kana = Some h' → covers h' kl0 kana0.
Proof.
  intros [Hown0 (b & Hb & Hk & Hl)] [Hown ->]%add_kana_Some. split; [done|].
  destruct (decide (text kana = text kana0)) as [Heq|Hne].
  - rewrite Heq, lookup_insert_eq, Hb. eexists. split; [done|]. simpl. split.
    + apply elem_of_set_add. by left.
    + intros x Hx. apply elem_of_set_add_all. left. by apply Hl.
  - rewrite lookup_insert_ne by done. by exists b.
Qed.

Lemma add_kana_covered (kl : list jsstring) (h : gmap jsstring bucket) (kana : element) :
  covers h kl kana → add_kana kl h kana = Some h.
Proof.
  intros [Hown (b & Hb & Hk & Hl)]. rewrite add_kana_eq by done. f_equal.
  apply insert_id. rewrite Hb. f_equal. destruct b as [ks js]. simpl in *.
  unfold grow. simpl. by rewrite set_add_member, set_add_all_members.
Qed.

Lemma forEach_add_kana_covers (kl : list jsstring) (kanas : list element)
    (h h' : gmap jsstring bucket) :
  forEach (add_kana kl) kanas h = Some h' →
  ∀ kana, kana ∈ kanas → covers h' kl kana.
Proof.
  revert h. induction kanas as [|k0 kanas IH]; intros h Hrun kana Hin.
  - by apply elem_of_nil in Hin.
  - simpl in Hrun. destruct (add_kana kl h k0) as [h1|] eqn:H1; [|done].
    apply elem_of_cons in Hin as [->|Hin]; [|by eapply IH].
    apply add_kana_covers in H1. revert H1 Hrun.
    apply (forEach_invariant (λ s, covers s kl k0)).
    intros s x s' Hs Hx. by eapply add_kana_keeps_covers.
Qed.

Lemma forEach_add_kana_covered (kl : list jsstring) (kanas : list element)
    (h : gmap jsstring bucket) :
  (∀ kana, kana ∈ kanas → covers h kl kana) →
  forEach (add_kana kl) kanas h = Some h.
Proof.
  induction kanas as [|k0 kanas IH]; intros Hall; simpl; [done|].
  rewrite add_kana_covered by (apply Hall; left).
  apply IH. intros kana Hin. apply Hall. by right.
Qed.

(** What each element establishes when it is processed, and every later
    step keeps, holds of all elements at the end of the loop. *)
Lemma forEach_established {A S} (Q : A → S → Prop) (f : S → A → option S) :
  (∀ s x s', f s x = Some s' → Q x s') →
  (∀ s x y s', Q y s → f s x = Some s' → Q y s') →
  ∀ xs s s', forEach f xs s = Some s' → ∀ x, x ∈ xs → Q x s'.
Proof.
  intros Hnew Hkeep. induction xs as [|y xs IH]; intros s s' Hrun x Hx.
  - by apply elem_of_nil in Hx.
  - simpl in Hrun. destruct (f s y) as [s1|] eqn:Hf; [|done].
    apply elem_of_cons in Hx as [->|Hx]; [|by eapply IH].
    apply Hnew in Hf. revert Hf Hrun. apply (forEach_invariant (Q y)).
    intros s2 z s3. apply Hkeep.
Qed.

Lemma add_entry_keeps_covers (kl0 : list jsstring) (kana0 : element)
    (h h' : gmap jsstring bucket) (e : entry) :
  covers h kl0 kana0 → add_entry h e = Some h' → covers h' kl0 kana0.
Proof.
  unfold add_entry. apply (forEach_invariant (λ s, covers s kl0 kana0)).
  intros s x s' Hs Hx. by eapply add_kana_keeps_covers.
Qed.

(** Every reading of every entry ends up with its katakana form and the
    kanji of its entry in its bucket. *)
Lemma build_h2kk_covers (d : jmdict) (h : gmap jsstring bucket) :
  build_h2kk d = Some h →
  ∀ e kana, e ∈ jm_words d → kana ∈ default [] (entry_kana e) →
    covers h (List.map text (default [] (entry_kanji e))) kana.
Proof.
  unfold build_h2kk. intros Hrun e kana He Hkana. revert kana Hkana.
  revert e He. revert Hrun.
  apply (forEach_established
           (λ e s, ∀ kana, kana ∈ default [] (entry_kana e) →
                     covers s (List.map text (default [] (entry_kanji e))) kana)).
  - intros s e s' Hadd kana Hkana. by eapply forEach_add_kana_covers.
  - intros s x e s' He Hadd kana Hkana. eapply add_entry_keeps_covers; [|done].
    by apply He.
Qed.

(** Adding an entry a second time changes nothing. *)
Lemma add_entry_again (h h' : gmap jsstring bucket) (e : entry) :
  add_entry h e = Some h' → add_entry h' e = Some h'.
Proof.
  unfold add_entry. intros Hrun.
  apply forEach_add_kana_covered. by eapply forEach_add_kana_covers.
Qed.

Lemma forEach_total {A S} (f : S → A → option S) (xs : list A) :
  (∀ s x, x ∈ xs → is_Some (f s x)) → ∀ s, is_Some (forEach f xs s).
Proof.
  induction xs as [|x xs IH]; intros Hf s; simpl; [done|].
  destruct (Hf s x ltac:(left)) as [s' ->].
  apply IH. intros s0 y Hy. apply Hf. by right.
Qed.

Lemma forEach_Some_elem {A S} (f : S → A → option S) (xs : list A) (s s' : S) :
  forEach f xs s = Some s' → ∀ x, x ∈ xs → ∃ s1, is_Some (f s1 x).
Proof.
  revert s. induction xs as [|y xs IH]; intros s Hrun x Hx.
  - by apply elem_of_nil in Hx.
  - simpl in Hrun. destruct (f s y) as [s1|] eqn:Hf; [|done].
    apply elem_of_cons in Hx as [->|Hx]; [by exists s; rewrite Hf | by eapply IH].
Qed.

(** The loop ends without exception exactly when every reading is an
    own key. *)
Lemma build_h2kk_Some_iff (d : jmdict) :
  is_Some (build_h2kk d) ↔ own_readings (jm_words d).
Proof.
  unfold build_h2kk. split.
  - intros [h Hh] e kana He Hkana.
    destruct (forEach_Some_elem _ _ _ _ Hh e He) as [h1 [h2 H2]].
    destruct (forEach_Some_elem _ _ _ _ H2 kana Hkana) as [h3 [h4 H4]].
    by apply add_kana_Some in H4 as [? _].
  - intros Hown. apply forEach_total. intros h e He. apply forEach_total.
    intros h' kana Hkana. rewrite add_kana_eq by by eapply Hown. done.
Qed.

(** C2: for every dictionary whose readings are own keys (any other
    makes the loop throw), convert builds an index; in it every hiragana
    key has one bucket, no bucket lists a katakana form or a kanji
    spelling twice, however many entries contribute it, every
    contributed form and spelling is in the bucket of its reading, and
    adding again what was added (a member to a set, a whole entry to the
    index) changes nothing. *)
Theorem C2_buckets_deduplicated (d : jmdict) :
  own_readings (jm_words d) →
  ∃ h2kk,
    build_h2kk d = Some h2kk ∧
    NoDup (spread_entries h2kk).*1 ∧
    (∀ key w1 w2, out_words (finalOutput d h2kk) !! key = Some w1 →
                  out_words (finalOutput d h2kk) !! key = Some w2 → w1 = w2) ∧
    (∀ key w, out_words (finalOutput d h2kk) !! key = Some w →
              NoDup (word_katakana w) ∧ NoDup (word_kanji w)) ∧
    (∀ e kana, e ∈ jm_words d → kana ∈ default [] (entry_kana e) →
       ∃ w, out_words (finalOutput d h2kk) !! text kana = Some w ∧
            replace_hiragana (text kana) ∈ word_katakana w ∧
            ∀ k, k ∈ List.map text (default [] (entry_kanji e)) → k ∈ word_kanji w) ∧
    (∀ (s : jsset) x, set_add (set_add s x) x = set_add s x) ∧
    (∀ h e h', add_entry h e = Some h' → add_entry h' e = Some h').
Proof.
  intros [h2kk Hbuild]%build_h2kk_Some_iff. exists h2kk. split_and!.
  - done.
  - rewrite spread_entries_keys. apply NoDup_fst_map_to_list.
  - intros key w1 w2 H1 H2. rewrite H1 in H2. by injection H2.
  - intros key w. rewrite out_words_spread, lookup_fmap.
    destruct (h2kk !! key) as [b|] eqn:Hb; simpl; [|done].
    intros [= <-]. simpl. by eapply build_h2kk_deduplicated.
  - intros e kana He Hkana.
    destruct (build_h2kk_covers d h2kk Hbuild e kana He Hkana) as [_ (b & Hb & Hk & Hl)].
    exists (spread b). rewrite out_words_spread, lookup_fmap, Hb. done.
  - intros s x. apply set_add_member, elem_of_set_add. by right.
  - intros h e h'. apply add_entry_again.
Qed.

Lemma C2_buckets_deduplicated_witness :
  ∃ h2kk,
    build_h2kk sample_dict = Some h2kk ∧
    NoDup (spread_entries h2kk).*1 ∧
    (∀ key w1 w2, out_words (finalOutput sample_dict h2kk) !! key = Some w1 →
                  out_words (finalOutput sample_dict h2kk) !! key = Some w2 → w1 = w2) ∧
    (∀ key w, out_words (finalOutput sample_dict h2kk) !! key = Some w →
              NoDup (word_katakana w) ∧ NoDup (word_kanji w)) ∧
    (∀ e kana, e ∈ jm_words sample_dict → kana ∈ default [] (entry_kana e) →
       ∃ w, out_words (finalOutput sample_dict h2kk) !! text kana = Some w ∧
            replace_hiragana (text kana) ∈ word_katakana w ∧
            ∀ k, k ∈ List.map text (default [] (entry_kanji e)) → k ∈ word_kanji w) ∧
    (∀ (s : jsset) x, set_add (set_add s x) x = set_add s x) ∧
    (∀ h e h', add_entry h e = Some h' → add_entry h' e = Some h').
Proof.
  apply (C2_buckets_deduplicated sample_dict).
  apply build_h2kk_Some_iff. exists sample_h2kk. vm_compute. reflexivity.
Defined.

(** ** Entries without a reading *)

Lemma forEach_invariant_elem {A S} (P : S → Prop) (f : S → A → option S) (xs : list A) :
  (∀ s x s', x ∈ xs → P s → f s x = Some s' → P s') →
  ∀ s s', P s → forEach f xs s = Some s' → P s'.
Proof.
  induction xs as [|x xs IH]; intros Hstep s s' Hs Hrun; simpl in Hrun.
  - by injection Hrun as <-.
  - destruct (f s x) as [s1|] eqn:Hf; [|done].
    apply (IH (λ s x s' Hx, Hstep s x s' (list_elem_of_further _ _ _ Hx)) s1 s');
      [|done].
    eapply Hstep; [left | done | done].
Qed.

Lemma add_entry_kanji_from (P : entry → Prop) (h h' : gmap jsstring bucket) (e : entry) :
  kanji_from P h → add_entry h e = Some h' → kanji_from (λ x, P x ∨ x = e) h'.
Proof.
  intros Hh. unfold add_entry.
  apply (forEach_invariant_elem (kanji_from (λ x, P x ∨ x = e))).
  - intros s kana s' Hkana Hs [_ ->]%add_kana_Some key b k.
    destruct (decide (text kana = key)) as [<-|Hne].
    + rewrite lookup_insert_eq. intros [= <-]. simpl.
      intros [Hold|Hnew]%elem_of_set_add_all.
      * destruct (s !! text kana) as [b0|] eqn:Hb0; simpl in Hold.
        -- by eapply Hs.
        -- by apply elem_of_nil in Hold.
      * exists e, kana. split_and!; [by right | done | done | done].
    + rewrite lookup_insert_ne by done. apply Hs.
  - intros key b k Hb Hk. destruct (Hh key b k Hb Hk) as (e0 & kana & ? & ? & ? & ?).
    exists e0, kana. split_and!; [by left | done..].
Qed.

Lemma forEach_add_entry_kanji_from (words : list entry) (P : entry → Prop)
    (h h' : gmap jsstring bucket) :
  kanji_from P h → forEach add_entry words h = Some h' →
  kanji_from (λ x, P x ∨ x ∈ words) h'.
Proof.
  revert P h. induction words as [|e words IH]; intros P h Hh Hrun; simpl in Hrun.
  - injection Hrun as <-. intros key b k Hb Hk.
    destruct (Hh key b k Hb Hk) as (e0 & kana & ? & ? & ? & ?).
    exists e0, kana. split_and!; [by left | done..].
  - destruct (add_entry h e) as [h1|] eqn:H1; [|done].
    pose proof (IH _ _ (add_entry_kanji_from P h h1 e Hh H1) Hrun) as Hfin.
    intros key b k Hb Hk. destruct (Hfin key b k Hb Hk) as (e0 & kana & He0 & ? & ? & ?).
    exists e0, kana. split_and!; [|done..].
    destruct He0 as [[?| ->]|?]; [by left | right; left | right; by right].
Qed.

Lemma add_entry_no_kana (h : gmap jsstring bucket) (e : entry) :
  default [] (entry_kana e) = [] → add_entry h e = Some h.
Proof. intros Hk. unfold add_entry. by rewrite Hk. Qed.

(** C10 as written fails: an entry without reading whose kanji spelling
    is in the output all the same, contributed by another entry. *)
Lemma C10_counterexample :
  ¬ (∀ (d : jmdict) (h : gmap jsstring bucket) (e : entry) (k : jsstring),
       build_h2kk d = Some h →
       e ∈ jm_words d →
       default [] (entry_kana e) = [] →
       k ∈ List.map text (default [] (entry_kanji e)) →
       ∀ key w, out_words (finalOutput d h) !! key = Some w → k ∉ word_kanji w).
Proof.
  intros Hclaim.
  apply (Hclaim shared_kanji_dict sample_h2kk kanji_only_entry s_ai_kanji
           ltac:(vm_compute; reflexivity) ltac:(left) ltac:(reflexivity) ltac:(left)
           s_ai_hira {| word_katakana := [s_ai_kata]; word_kanji := [s_ai_kanji] |}).
  - rewrite out_words_spread. vm_compute. reflexivity.
  - left.
Qed.

(** C10 (amended): an entry whose kana sequence is absent or empty adds
    nothing to the index: processing it leaves the index as it is, the
    index of a dictionary is the index of the dictionary without that
    entry, and a kanji spelling is in an output bucket only when some
    entry with that bucket's reading lists it, so a spelling that only
    entries without reading list is nowhere in the output. *)
Theorem C10_entry_without_kana_adds_nothing
    (before after : list entry) (e : entry) (version dictDate : jsstring) :
  default [] (entry_kana e) = [] →
  (∀ h, add_entry h e = Some h) ∧
  build_h2kk (Jmdict version dictDate (before ++ e :: after)) =
    build_h2kk (Jmdict version dictDate (before ++ after)) ∧
  (∀ h key w k,
      build_h2kk (Jmdict version dictDate (before ++ e :: after)) = Some h →
      out_words (finalOutput (Jmdict version dictDate (before ++ e :: after)) h) !! key = Some w →
      k ∈ word_kanji w →
      ∃ e' kana, e' ∈ before ++ after ∧ kana ∈ default [] (entry_kana e') ∧
                 text kana = key ∧ k ∈ List.map text (default [] (entry_kanji e'))).
Proof.
  intros Hk. split_and!.
  - intros h. by apply add_entry_no_kana.
  - unfold build_h2kk. simpl. rewrite !forEach_app. simpl.
    destruct (forEach add_entry before ∅) as [h|]; simpl; [|done].
    by rewrite add_entry_no_kana.
  - intros h key w k Hbuild Hw Hin.
    rewrite out_words_spread, lookup_fmap in Hw.
    destruct (h !! key) as [b|] eqn:Hb; simpl in Hw; [|done].
    injection Hw as <-. simpl in Hin.
    assert (Hempty : kanji_from (λ _, False) (∅ : gmap jsstring bucket)).
    { intros key' b' k' Hb'. by rewrite lookup_empty in Hb'. }
    pose proof (forEach_add_entry_kanji_from _ _ _ _ Hempty Hbuild key b k Hb Hin)
      as (e' & kana & [[]|He'] & Hkana & Hkey & Hkj).
    simpl in He'. exists e', kana. split_and!; [|done..].
    apply elem_of_app in He' as [?|He']; [apply elem_of_app; by left|].
    apply elem_of_cons in He' as [->|?]; [|apply elem_of_app; by right].
    rewrite Hk in Hkana. by apply elem_of_nil in Hkana.
Qed.

Lemma C10_entry_without_kana_adds_nothing_witness :
  default [] (entry_kana kanji_only_entry) = [] ∧
  (∀ h, add_entry h kanji_only_entry = Some h) ∧
  build_h2kk (Jmdict (lit "1") (lit "2024") ([sample_entry] ++ kanji_only_entry :: [])) =
    build_h2kk (Jmdict (lit "1") (lit "2024") ([sample_entry] ++ [])) ∧
  (∀ h key w k,
      build_h2kk (Jmdict (lit "1") (lit "2024") ([sample_entry] ++ kanji_only_entry :: [])) = Some h →
      out_words (finalOutput (Jmdict (lit "1") (lit "2024")
                                ([sample_entry] ++ kanji_only_entry :: [])) h) !! key = Some w →
      k ∈ word_kanji w →
      ∃ e' kana, e' ∈ [sample_entry] ++ [] ∧ kana ∈ default [] (entry_kana e') ∧
                 text kana = key ∧ k ∈ List.map text (default [] (entry_kanji e'))).
Proof.
  split; [reflexivity|].
  apply (C10_entry_without_kana_adds_nothing [sample_entry] [] kanji_only_entry
           (lit "1") (lit "2024")).
  reflexivity.
Defined.

(** ** Runs of convert *)

Lemma same_words_refl (m : gmap jsstring word) : same_words m m.
Proof.
  split; [done|]. intros key a b Ha Hb. rewrite Ha in Hb. by injection Hb as <-.
Qed.

Lemma gzipped_path_differs (E : env) : gzippedOutputFilePath E ≠ outputFilePath E.
Proof.
  unfold gzippedOutputFilePath. intros Heq.
  apply (f_equal length) in Heq. rewrite length_app in Heq. simpl in Heq. lia.
Qed.

(** What a successful run has read, computed and written. *)
Lemma convert_true_inv (E : env) (fileName : jsstring) (w w' : world) :
  convert E (VString fileName) w = (Resolved true, w') →
  ∃ data d h,
    read_error E (inputFilePath E fileName) = false ∧
    files w !! inputFilePath E fileName = Some data ∧
    JSON_parse E data = Some (JDictionary d) ∧
    build_h2kk d = Some h ∧
    gzip_stage E = Finish ∧
    dirs w' = dirs w ∧
    files w' =
      <[gzippedOutputFilePath E := gzip_bytes E (JSON_stringify E (finalOutput d h))]>
        (<[outputFilePath E := JSON_stringify E (finalOutput d h)]> (files w)).
Proof.
  unfold convert. destruct fileName as [|c f]; [discriminate|].
  destruct (Bool.eqb _ false); [discriminate|].
  destruct (existsSync _ (VBool _)); [discriminate|].
  destruct (readFile _ _ _) as [data|] eqn:Hread; [|discriminate].
  destruct (JSON_parse E data) as [[| d | |]|] eqn:Hparse; try discriminate.
  destruct (build_h2kk d) as [h|] eqn:Hh; [|discriminate].
  destruct (writeFile _ _ _ _) as [w1|] eqn:Hwrite; [|discriminate].
  unfold writeFile in Hwrite.
  destruct (write_error E _ || _); [discriminate|]. injection Hwrite as <-.
  cbn [createGzipVersion Bool.eqb].
  unfold compress, dispatch. destruct (gzip_stage E) eqn:Hg; [|discriminate].
  cbn [log put_file files]. rewrite lookup_insert_eq.
  intros [= <-].
  unfold readFile in Hread. cbn [log files] in Hread.
  destruct (read_error E _) eqn:Hre; [discriminate|].
  exists data, d, h. by split_and!.
Qed.

Lemma indexed_of_source (E : env) (fileName data : jsstring) (d : jmdict)
    (h : gmap jsstring bucket) (w : world) :
  read_error E (inputFilePath E fileName) = false →
  files w !! inputFilePath E fileName = Some data →
  JSON_parse E data = Some (JDictionary d) →
  build_h2kk d = Some h →
  indexed E fileName w = Some (finalOutput d h).
Proof.
  intros Hre Hfile Hparse Hh. unfold indexed, readFile.
  rewrite Hre, Hfile. simpl. rewrite Hparse. simpl. by rewrite Hh.
Qed.

Lemma convert_true_output (E : env) (fileName : jsstring) (w w' : world) :
  convert E (VString fileName) w = (Resolved true, w') →
  ∃ o, indexed E fileName w = Some o ∧
       files w' !! outputFilePath E = Some (JSON_stringify E o) ∧
       files w' !! gzippedOutputFilePath E = Some (gzip_bytes E (JSON_stringify E o)).
Proof.
  intros (data & d & h & Hre & Hfile & Hparse & Hh & _ & _ & ->)%convert_true_inv.
  exists (finalOutput d h). split_and!.
  - by eapply indexed_of_source.
  - rewrite lookup_insert_ne by apply gzipped_path_differs. by rewrite lookup_insert_eq.
  - by rewrite lookup_insert_eq.
Qed.

(** A run on a well-formed source with no failing operation succeeds. *)
Lemma convert_succeeds (E : env) (fileName data : jsstring) (d : jmdict)
    (h : gmap jsstring bucket) (w : world) :
  fileName ≠ [] →
  files w !! inputFilePath E fileName = Some data →
  read_error E (inputFilePath E fileName) = false →
  JSON_parse E data = Some (JDictionary d) →
  build_h2kk d = Some h →
  write_error E (outputFilePath E) = false →
  outputFilePath E ∉ dirs w →
  gzip_stage E = Finish →
  convert E (VString fileName) w =
    (Resolved true,
     {| files := <[gzippedOutputFilePath E :=
                     gzip_bytes E (JSON_stringify E (finalOutput d h))]>
                   (<[outputFilePath E := JSON_stringify E (finalOutput d h)]> (files w));
        dirs := dirs w;
        console := ((console w ++ [MsgConverting fileName])
                      ++ [MsgSaved (outputFilePath E)])
                      ++ [MsgGzSaved (gzippedOutputFilePath E)] |}).
Proof.
  intros Hname Hfile Hread Hparse Hbuild Hwrite Hdir Hgzip.
  unfold convert. destruct fileName as [|c f]; [done|].
  assert (Hex : existsSync (log (MsgConverting (c :: f)) w)
                  (VString (inputFilePath E (c :: f))) = true).
  { cbn [existsSync log files]. apply orb_true_iff. left. apply bool_decide_eq_true.
    apply elem_of_dom. by rewrite Hfile. }
  rewrite Hex. cbn [Bool.eqb existsSync]. unfold readFile. rewrite Hread.
  cbn [log files]. rewrite Hfile, Hparse, Hbuild. unfold writeFile. rewrite Hwrite.
  cbn [log dirs]. rewrite bool_decide_eq_false_2 by done.
  cbn [orb createGzipVersion Bool.eqb]. unfold compress, dispatch. rewrite Hgzip.
  cbn [log put_file files dirs console]. by rewrite lookup_insert_eq.
Qed.

(** C8: on a well-formed source file, with no failing file operation,
    the indexer succeeds, and a second run in any world where the source
    file has the same content succeeds as well and computes the same
    output: the same keys and, bucket by bucket, the same members (here
    even in the same order), written to the same plain file. *)
Theorem C8_rerun_same_words (E : env) (fileName data : jsstring) (d : jmdict)
    (w w' : world) :
  fileName ≠ [] →
  files w !! inputFilePath E fileName = Some data →
  read_error E (inputFilePath E fileName) = false →
  JSON_parse E data = Some (JDictionary d) →
  own_readings (jm_words d) →
  write_error E (outputFilePath E) = false →
  outputFilePath E ∉ dirs w →
  gzip_stage E = Finish →
  files w' !! inputFilePath E fileName = files w !! inputFilePath E fileName →
  outputFilePath E ∉ dirs w' →
  ∃ w1 w2 o1 o2,
    convert E (VString fileName) w = (Resolved true, w1) ∧
    convert E (VString fileName) w' = (Resolved true, w2) ∧
    indexed E fileName w = Some o1 ∧
    indexed E fileName w' = Some o2 ∧
    files w1 !! outputFilePath E = Some (JSON_stringify E o1) ∧
    files w2 !! outputFilePath E = Some (JSON_stringify E o2) ∧
    same_words (out_words o1) (out_words o2) ∧
    o1 = o2.
Proof.
  intros Hname Hfile Hread Hparse [h Hbuild]%build_h2kk_Some_iff Hwrite Hdir Hgzip
    Hsame Hdir'.
  rewrite Hfile in Hsame.
  pose proof (convert_succeeds E fileName data d h w Hname Hfile Hread Hparse Hbuild
                Hwrite Hdir Hgzip) as Hrun1.
  pose proof (convert_succeeds E fileName data d h w' Hname Hsame Hread Hparse Hbuild
                Hwrite Hdir' Hgzip) as Hrun2.
  eexists _, _, (finalOutput d h), (finalOutput d h).
  split; [exact Hrun1|]. split; [exact Hrun2|]. split_and!.
  - by eapply indexed_of_source.
  - by eapply indexed_of_source.
  - cbn [files]. rewrite lookup_insert_ne by apply gzipped_path_differs.
    by rewrite lookup_insert_eq.
  - cbn [files]. rewrite lookup_insert_ne by apply gzipped_path_differs.
    by rewrite lookup_insert_eq.
  - apply same_words_refl.
  - done.
Qed.

Lemma C8_rerun_same_words_witness :
  ∃ w1 w2 o1 o2,
    convert sample_env (VString (lit "dict.json")) sample_world = (Resolved true, w1) ∧
    convert sample_env (VString (lit "dict.json")) sample_world_after = (Resolved true, w2) ∧
    indexed sample_env (lit "dict.json") sample_world = Some o1 ∧
    indexed sample_env (lit "dict.json") sample_world_after = Some o2 ∧
    files w1 !! outputFilePath sample_env = Some (JSON_stringify sample_env o1) ∧
    files w2 !! outputFilePath sample_env = Some (JSON_stringify sample_env o2) ∧
    same_words (out_words o1) (out_words o2) ∧
    o1 = o2.
Proof.
  apply (C8_rerun_same_words sample_env (lit "dict.json") (lit "{dict}") sample_dict
           sample_world sample_world_after).
  - discriminate.
  - vm_compute; reflexivity.
  - reflexivity.
  - vm_compute; reflexivity.
  - apply build_h2kk_Some_iff. exists sample_h2kk. vm_compute. reflexivity.
  - reflexivity.
  - apply (proj1 (bool_decide_eq_false _)). vm_compute; reflexivity.
  - reflexivity.
  - vm_compute; reflexivity.
  - apply (proj1 (bool_decide_eq_false _)). vm_compute; reflexivity.
Defined.

(** ** The release folder check *)

Lemma quiet_refl (w : world) : quiet_extension w w.
Proof. exists []. split; [by rewrite app_nil_r | apply not_elem_of_nil]. Qed.

Lemma quiet_log (m : message) (w w' : world) :
  m ≠ MsgReleaseFolderMissing → quiet_extension w w' → quiet_extension w (log m w').
Proof.
  intros Hm (lines & Hc & Hl). exists (lines ++ [m]). split.
  - simpl. by rewrite Hc, app_assoc.
  - rewrite elem_of_app, list_elem_of_singleton. intros [?|?]; [done|]. by apply Hm.
Qed.

Lemma quiet_put_file (p data : jsstring) (w w' : world) :
  quiet_extension w w' → quiet_extension w (put_file p data w').
Proof. intros (lines & Hc & Hl). by exists lines. Qed.

Lemma quiet_compress (E : env) (out gz : jsstring) (w w' : world) :
  quiet_extension w w' → quiet_extension w (compress E out gz w').2.
Proof.
  intros Hq. unfold compress, dispatch. destruct (gzip_stage E); simpl.
  - apply quiet_log; [done|]. destruct (files w' !! out); [by apply quiet_put_file | done].
  - destruct (gzip_partial E); [by apply quiet_put_file | done].
Qed.

Lemma quiet_convert (E : env) (fileName : value) (w : world) :
  quiet_extension w (convert E fileName w).2.
Proof.
  unfold convert.
  destruct fileName as [| b | [|c f]]; simpl;
    try (apply quiet_log; [done | apply quiet_refl]).
  destruct (Bool.eqb _ false); simpl.
  { do 2 (apply quiet_log; [done|]). apply quiet_refl. }
  destruct (readFile _ _ _) as [data|]; simpl;
    [|do 2 (apply quiet_log; [done|]); apply quiet_refl].
  destruct (JSON_parse E data) as [[| d | |]|]; simpl;
    try (apply quiet_log; [done | apply quiet_refl]);
    try (do 2 (apply quiet_log; [done|]); apply quiet_refl).
  destruct (build_h2kk d) as [h|]; simpl; [|apply quiet_log; [done | apply quiet_refl]].
  unfold writeFile. destruct (write_error E _ || _); simpl.
  { do 2 (apply quiet_log; [done|]). apply quiet_refl. }
  apply quiet_compress. apply quiet_log; [done|]. apply quiet_put_file.
  apply quiet_log; [done|]. apply quiet_refl.
Qed.

(** C9: the release folder check tests [existsSync] of the boolean
    [releaseFolder === false], which is [false] in every world; the
    branch that reports a missing release folder is never taken, whatever
    the file name and the world; without a release folder the run goes on
    and fails only when it writes. *)
Theorem C9_release_guard_vacuous :
  strict_eq (VString releaseFolder) (VBool false) = false ∧
  (∀ w b, existsSync w (VBool b) = false) ∧
  (∀ w, existsSync w (VBool (strict_eq (VString releaseFolder) (VBool false))) = false) ∧
  (∀ E fileName w, ∃ lines,
      console (convert E fileName w).2 = console w ++ lines ∧
      MsgReleaseFolderMissing ∉ lines) ∧
  existsSync no_release_world (VString (Path.join [__dirname no_release_env; releaseFolder]))
    = false ∧
  convert no_release_env (VString (lit "dict.json")) no_release_world
    = (Resolved false,
       {| files := files no_release_world; dirs := dirs no_release_world;
          console := [MsgConverting (lit "dict.json"); MsgWriteError] |}).
Proof.
  split_and!; [done | done | done | | by vm_compute | by vm_compute].
  intros E fileName w. apply quiet_convert.
Qed.

(** ** A failure of the compression stage *)

(** The compression chain never resolves [false]: its only listener is
    the one for ['finish'], which gets no argument. *)
Lemma compress_never_false (E : env) (out gz : jsstring) (w : world) :
  (compress E out gz w).1 ≠ Resolved false.
Proof. unfold compress, dispatch. by destruct (gzip_stage E). Qed.

Lemma compress_error_uncaught (E : env) (out gz : jsstring) (w : world) (s : stream) :
  gzip_stage E = ErrorOn s → gz ≠ out →
  (compress E out gz w).1 = Uncaught ∧
  files (compress E out gz w).2 !! out = files w !! out.
Proof.
  intros Hs Hne. unfold compress, dispatch. rewrite Hs. simpl. split; [done|].
  destruct (gzip_partial E); simpl; [by rewrite lookup_insert_ne | done].
Qed.

(** A run that reaches the compression stage and meets a failing stream
    there: the promise is not resolved, the plain file stays. *)
Lemma convert_compression_failure (E : env) (fileName data : jsstring) (d : jmdict)
    (h : gmap jsstring bucket) (w : world) (s : stream) :
  fileName ≠ [] →
  existsSync w (VString (inputFilePath E fileName)) = true →
  readFile E w (inputFilePath E fileName) = Some data →
  JSON_parse E data = Some (JDictionary d) →
  build_h2kk d = Some h →
  write_error E (outputFilePath E) = false →
  outputFilePath E ∉ dirs w →
  gzip_stage E = ErrorOn s →
  (convert E (VString fileName) w).1 = Uncaught ∧
  files (convert E (VString fileName) w).2 !! outputFilePath E
    = Some (JSON_stringify E (finalOutput d h)).
Proof.
  intros Hname Hexists Hread Hparse Hbuild Hwrite Hdir Hs.
  unfold convert. destruct fileName as [|c f]; [done|].
  replace (existsSync (log (MsgConverting (c :: f)) w) (VString (inputFilePath E (c :: f))))
    with true by done.
  cbn [Bool.eqb]. replace (readFile E (log (MsgConverting (c :: f)) w) (inputFilePath E (c :: f)))
    with (Some data) by done.
  cbn [existsSync]. rewrite Hparse, Hbuild. unfold writeFile. rewrite Hwrite.
  cbn [log dirs]. rewrite bool_decide_eq_false_2 by done. cbn [orb createGzipVersion Bool.eqb].
  destruct (compress_error_uncaught E (outputFilePath E) (gzippedOutputFilePath E)
              (log (MsgSaved (outputFilePath E))
                 (put_file (outputFilePath E) (JSON_stringify E (finalOutput d h))
                    (log (MsgConverting (c :: f)) w))) s Hs (gzipped_path_differs E))
    as [-> ->].
  split; [done|]. cbn [log put_file files]. by rewrite lookup_insert_eq.
Qed.

(** C6 at a failing input: the plain file is written, the stream of the
    compressed copy emits an error; the call does not resolve [false] (no
    listener takes the error, the exception is uncaught), and the plain
    file is still there.  For no environment does the compression stage
    resolve [false]. *)
Theorem C6_compression_failure_not_reported :
  (convert gzip_failing_env (VString (lit "dict.json")) sample_world).1 = Uncaught ∧
  (convert gzip_failing_env (VString (lit "dict.json")) sample_world).1 ≠ Resolved false ∧
  files (convert gzip_failing_env (VString (lit "dict.json")) sample_world).2
    !! outputFilePath gzip_failing_env
    = Some (JSON_stringify gzip_failing_env (finalOutput sample_dict sample_h2kk)) ∧
  (∀ E out gz w, (compress E out gz w).1 ≠ Resolved false).
Proof.
  destruct (convert_compression_failure gzip_failing_env (lit "dict.json") (lit "{dict}")
              sample_dict sample_h2kk sample_world WriteStream)
    as [Hr Hf].
  - discriminate.
  - vm_compute; reflexivity.
  - vm_compute; reflexivity.
  - vm_compute; reflexivity.
  - vm_compute; reflexivity.
  - reflexivity.
  - apply (proj1 (bool_decide_eq_false _)). vm_compute; reflexivity.
  - reflexivity.
  - split_and!; [exact Hr | rewrite Hr; discriminate | exact Hf | apply compress_never_false].
Qed.

(** ** The release resolver *)

Lemma startsWith_spec (p s : jsstring) :
  startsWith s p = true ↔ ∃ t, s = p ++ t.
Proof.
  revert s. induction p as [|b p IH]; intros s.
  - destruct s; simpl; split; eauto.
  - destruct s as [|a s]; simpl.
    + split; [done | intros [t Ht]; done].
    + rewrite andb_true_iff, Z.eqb_eq, IH. split.
      * intros [-> [t ->]]. by exists t.
      * intros [t [= -> ->]]. eauto.
Qed.

Lemma endsWith_spec (p s : jsstring) :
  endsWith s p = true ↔ ∃ t, s = t ++ p.
Proof.
  unfold endsWith. rewrite andb_true_iff, Nat.leb_le, bool_decide_eq_true. split.
  - intros [Hlen Hdrop]. exists (take (length s - length p) s).
    transitivity (take (length s - length p) s ++ drop (length s - length p) s);
      [by rewrite take_drop | by rewrite Hdrop].
  - intros [t ->]. rewrite length_app. split; [lia|].
    replace (length t + length p - length p)%nat with (length t) by lia.
    by rewrite drop_app_length.
Qed.

Lemma prefix_match_spec (prefix : option jsstring) (filename : jsstring) :
  (if truthy_opt prefix then startsWith filename (default [] prefix) else true) = true ↔
  absent prefix ∨ ∃ p t, prefix = Some p ∧ filename = p ++ t.
Proof.
  unfold absent. destruct prefix as [[|c p]|]; simpl;
    try (split; [intros _; left; by eauto | done]).
  change (match filename with
          | [] => false
          | a :: s' => (a =? c) && startsWith s' p
          end) with (startsWith filename (c :: p)).
  rewrite startsWith_spec. split.
  - intros [t Ht]. right. by exists (c :: p), t.
  - intros [[?|?]|(p' & t & [= <-] & Ht)]; [done..|]. by exists t.
Qed.

Lemma extension_match_spec (ext : option jsstring) (filename : jsstring) :
  (if truthy_opt ext then endsWith filename (default [] ext) else true) = true ↔
  absent ext ∨ ∃ x t, ext = Some x ∧ filename = t ++ x.
Proof.
  unfold absent. destruct ext as [[|c x]|]; cbn [truthy_opt truthy_string default];
    try (split; [intros _; left; by eauto | done]).
  rewrite endsWith_spec. split.
  - intros [t Ht]. right. by exists (c :: x), t.
  - intros [[?|?]|(x' & t & [= <-] & Ht)]; [done..|]. by exists t.
Qed.

Lemma asset_matches_spec (prefix ext : option jsstring) (a : asset) :
  asset_matches prefix ext a = true ↔ name_matches prefix ext a.
Proof.
  unfold asset_matches, name_matches.
  by rewrite andb_true_iff, prefix_match_spec, extension_match_spec.
Qed.

(** The first element that [filter] keeps. *)
Lemma filter_first {A} (f : A → bool) (l : list A) (m : A) (rest : list A) :
  List.filter f l = m :: rest →
  ∃ before after, l = before ++ m :: after ∧ f m = true ∧
                  ∀ b, b ∈ before → f b = false.
Proof.
  induction l as [|x l IH]; simpl; [done|].
  destruct (f x) eqn:Hx.
  - intros [= -> <-]. exists [], l. split_and!; [done..|].
    intros b Hb. by apply elem_of_nil in Hb.
  - intros (before & after & -> & Hm & Hb)%IH.
    exists (x :: before), after. split_and!; [done..|].
    intros b [->|?]%elem_of_cons; [done | by apply Hb].
Qed.

Lemma filter_first_inv {A} (f : A → bool) (before after : list A) (m : A) :
  f m = true → (∀ b, b ∈ before → f b = false) →
  ∃ rest, List.filter f (before ++ m :: after) = m :: rest.
Proof.
  intros Hm. induction before as [|x before IH]; intros Hb; simpl.
  - rewrite Hm. eauto.
  - rewrite (Hb x) by left. apply IH. intros b ?. apply Hb. by right.
Qed.

Lemma filter_none {A} (f : A → bool) (l : list A) :
  List.filter f l = [] ↔ ∀ a, a ∈ l → f a = false.
Proof.
  induction l as [|x l IH]; simpl.
  - split; [intros _ a Ha; by apply elem_of_nil in Ha | done].
  - destruct (f x) eqn:Hx.
    + split; [done|]. intros Hall. specialize (Hall x ltac:(left)). congruence.
    + rewrite IH. split.
      * intros Hall a [->|?]%elem_of_cons; [done | by apply Hall].
      * intros Hall a ?. apply Hall. by right.
Qed.

Lemma getAsset_2xx (E : env) (owner repo tag url data : jsstring)
    (prefix ext : option jsstring) (statusCode : Z) (location : option jsstring)
    (releaseData : json) (w : world) :
  apiUrl E owner repo tag = Some url →
  https_get E url = HttpResponse statusCode location data →
  200 ≤ statusCode < 300 →
  JSON_parse E data = Some releaseData →
  getAsset E owner repo prefix ext tag w =
    (Resolved (select_asset prefix ext releaseData w).1,
     (select_asset prefix ext releaseData w).2).
Proof.
  intros Hurl Hget Hst Hparse. unfold getAsset. rewrite Hurl, Hget.
  replace (is_2xx statusCode) with true
    by (symmetry; unfold is_2xx; apply andb_true_iff; split;
        [apply Z.leb_le | apply Z.ltb_lt]; lia).
  rewrite Hparse. by destruct (select_asset prefix ext releaseData w).
Qed.

(** C7: on a 2xx metadata response that parses to a release, the
    resolver returns the first listed asset whose name passes both
    filters, and returns null exactly when the release has no asset list,
    an empty one, or no asset that passes. *)
Theorem C7_first_matching_asset (E : env) (owner repo tag url data : jsstring)
    (prefix ext : option jsstring) (statusCode : Z) (location : option jsstring)
    (r : release) (w : world) :
  apiUrl E owner repo tag = Some url →
  https_get E url = HttpResponse statusCode location data →
  200 ≤ statusCode < 300 →
  JSON_parse E data = Some (JRelease r) →
  ∃ result,
    (getAsset E owner repo prefix ext tag w).1 = Resolved result ∧
    (∀ a, result = Some a ↔
          ∃ before after, assets r = Some (before ++ a :: after) ∧
                          name_matches prefix ext a ∧
                          ∀ b, b ∈ before → ¬ name_matches prefix ext b) ∧
    (result = None ↔
       assets r = None ∨ assets r = Some [] ∨
       ∃ l, assets r = Some l ∧ ∀ a, a ∈ l → ¬ name_matches prefix ext a).
Proof.
  intros Hurl Hget Hst Hparse.
  rewrite (getAsset_2xx E owner repo tag url data prefix ext statusCode location
             (JRelease r) w Hurl Hget Hst Hparse).
  assert (Hfalse : ∀ a, asset_matches prefix ext a = false ↔ ¬ name_matches prefix ext a).
  { intros a. rewrite <- asset_matches_spec. by destruct (asset_matches prefix ext a). }
  destruct r as [[[|a0 l]|]]; cbn [select_asset assets].
  - exists None. split_and!; [done| |].
    + intros a. split; [done|]. intros (before & after & [= Hl] & _).
      by destruct before.
    + split; [intros _; right; left; reflexivity | intros _; reflexivity].
  - destruct (List.filter (asset_matches prefix ext) (a0 :: l)) as [|m rest] eqn:Hf.
    + exists None. simpl. split_and!; [done| |].
      * intros a. split; [done|]. intros (before & after & [= Hl] & Hm & Hb).
        destruct (filter_first_inv (asset_matches prefix ext) before after a) as [x Hx].
        { by apply asset_matches_spec. }
        { intros b Hin. apply Hfalse. by apply Hb. }
        rewrite <- Hl in Hx. congruence.
      * split; [|done]. intros _. right. right. exists (a0 :: l). split; [done|].
        intros a Hin. apply Hfalse. by apply (proj1 (filter_none _ _) Hf).
    + exists (Some m). simpl. split_and!; [done| |].
      * intros a. split.
        -- intros [= <-]. apply filter_first in Hf as (before & after & Hl & Hm & Hb).
           exists before, after. rewrite Hl. split_and!; [done | by apply asset_matches_spec|].
           intros b Hin. apply Hfalse. by apply Hb.
        -- intros (before & after & [= Hl] & Hm & Hb).
           destruct (filter_first_inv (asset_matches prefix ext) before after a) as [x Hx].
           { by apply asset_matches_spec. }
           { intros b Hin. apply Hfalse. by apply Hb. }
           rewrite <- Hl in Hx. congruence.
      * split; [done|]. intros [?|[?|(l' & [= <-] & Hall)]]; [done..|].
        apply filter_first in Hf as (before & after & Hl & Hm & _).
        exfalso. apply (Hall m); [rewrite Hl; apply elem_of_app; right; left|].
        by apply asset_matches_spec.
  - exists None. split_and!; [done| |].
    + intros a. split; [done|]. by intros (before & after & ? & _).
    + split; [intros _; left; reflexivity | intros _; reflexivity].
Qed.

(** ** The redirect bound of the downloader *)

Lemma is_3xx_not_2xx (statusCode : Z) : is_3xx statusCode = true → is_2xx statusCode = false.
Proof.
  unfold is_3xx, is_2xx. intros [H1 H2]%andb_true_iff.
  apply Z.leb_le in H1. apply andb_false_iff. right. apply Z.ltb_ge. lia.
Qed.

Lemma doDownload_too_many (E : env) (dir : jsstring) (fn : option jsstring) (w : world)
    (url : jsstring) (c : Z) :
  c > 5 → doDownload E dir fn w url c = Some (Resolved None, log MsgTooManyRedirects w).
Proof. intros Hc. simp doDownload. destruct (Z_gt_dec c 5); [done | lia]. Qed.

Lemma doDownload_request (E : env) (dir : jsstring) (fn : option jsstring) (w : world)
    (url : jsstring) (c : Z) :
  c <= 5 →
  doDownload E dir fn w url c =
    match https_get E url with
    | HttpThrows => None
    | HttpError => Some (Resolved None, log MsgDownloadTransport w)
    | HttpResponse statusCode location body =>
        if is_2xx statusCode
        then Some (save_response E dir fn url c body w)
        else if is_3xx statusCode && truthy_opt location
        then match doDownload E dir fn w (default [] location) (c + 1) with
             | Some r => Some r
             | None => Some (Uncaught, w)
             end
        else Some (Resolved None, log (MsgDownloadStatus statusCode) w)
    end.
Proof. intros Hc. simp doDownload. destruct (Z_gt_dec c 5); [lia | done]. Qed.

Lemma doDownload_hop (E : env) (dir : jsstring) (fn : option jsstring) (w : world)
    (url location body : jsstring) (statusCode c : Z) :
  c <= 5 →
  https_get E url = HttpResponse statusCode (Some location) body →
  is_3xx statusCode = true → location ≠ [] →
  doDownload E dir fn w url c =
    match doDownload E dir fn w location (c + 1) with
    | Some r => Some r
    | None => Some (Uncaught, w)
    end.
Proof.
  intros Hc Hget H3 Hloc. rewrite doDownload_request by done.
  rewrite Hget, (is_3xx_not_2xx _ H3), H3. by destruct location.
Qed.

(** More hops than the bound allows: the chain is cut. *)
Lemma doDownload_cut (E : env) (dir : jsstring) (fn : option jsstring) (w : world)
    (final : jsstring) (n : nat) :
  ∀ (url : jsstring) (c : Z),
    redirects E n url final → c + Z.of_nat n > 5 →
    doDownload E dir fn w url c = Some (Resolved None, log MsgTooManyRedirects w).
Proof.
  induction n as [|n IH]; intros url c Hchain Hn.
  - apply doDownload_too_many. lia.
  - destruct (Z_gt_dec c 5) as [Hc|Hc]; [by apply doDownload_too_many|].
    destruct Hchain as (statusCode & location & body & Hget & H3 & Hloc & Hrest).
    rewrite (doDownload_hop E dir fn w url location body statusCode c) by (done || lia).
    rewrite (IH location (c + 1)) by (done || lia). done.
Qed.

(** Hops within the bound are followed to the final URL. *)
Lemma doDownload_follow (E : env) (dir : jsstring) (fn : option jsstring) (w : world)
    (final body : jsstring) (statusCode : Z) (location : option jsstring) (n : nat) :
  https_get E final = HttpResponse statusCode location body →
  is_2xx statusCode = true →
  ∀ (url : jsstring) (c : Z),
    redirects E n url final → c + Z.of_nat n <= 5 →
    doDownload E dir fn w url c =
      Some (save_response E dir fn final (c + Z.of_nat n) body w).
Proof.
  intros Hfinal H2. induction n as [|n IH]; intros url c Hchain Hn.
  - simpl in Hchain. subst url. rewrite doDownload_request by lia.
    rewrite Hfinal, H2. by rewrite Z.add_0_r.
  - destruct Hchain as (st & loc & b & Hget & H3 & Hloc & Hrest).
    rewrite (doDownload_hop E dir fn w url loc b st c) by (done || lia).
    rewrite (IH loc (c + 1)) by (done || lia).
    by replace (c + 1 + Z.of_nat n) with (c + Z.of_nat (S n)) by lia.
Qed.

(** C4: a download that meets six or more redirect hops resolves null
    with the too-many-redirects report; one that meets five or fewer hops
    and then a 2xx response, and whose file is written without error,
    resolves the path of the written file. *)
Theorem C4_redirect_bound (E : env) (fileUrl downloadDir final : jsstring)
    (filename : option jsstring) (w : world) (n : nat) :
  fileUrl ≠ [] →
  existsSync w (VString downloadDir) = true →
  redirects E n fileUrl final →
  ((6 <= n)%nat →
     downloadAsset E (VString fileUrl) downloadDir filename w
       = (Resolved None, log MsgTooManyRedirects w)) ∧
  ((n <= 5)%nat →
     ∀ statusCode location body fileName,
       https_get E final = HttpResponse statusCode location body →
       200 <= statusCode < 300 →
       (if truthy_opt filename then filename else url_basename E final) = Some fileName →
       write_error E (Path.join [downloadDir; fileName]) = false →
       Path.join [downloadDir; fileName] ∉ dirs w →
       downloadAsset E (VString fileUrl) downloadDir filename w
         = (Resolved (Some (Path.join [downloadDir; fileName])),
            log (MsgDownloaded (Z.of_nat n) (Path.join [downloadDir; fileName]))
              (put_file (Path.join [downloadDir; fileName]) body w))).
Proof.
  intros Hurl Hdir Hchain.
  destruct fileUrl as [|u0 us]; [done|]. unfold downloadAsset. rewrite Hdir. cbn [negb].
  split.
  - intros Hn. by rewrite (doDownload_cut E downloadDir filename w final n) by (done || lia).
  - intros Hn statusCode location body fileName Hfinal Hst Hname Hwrite Hnodir.
    assert (H2 : is_2xx statusCode = true).
    { unfold is_2xx. apply andb_true_iff. split; [apply Z.leb_le | apply Z.ltb_lt]; lia. }
    rewrite (doDownload_follow E downloadDir filename w final body statusCode location n
               Hfinal H2) by (done || lia).
    unfold save_response. rewrite Hname, Hwrite.
    by rewrite bool_decide_eq_false_2 by done.
Qed.

Lemma C4_redirect_bound_witness :
  downloadAsset (hop_env 6) (VString [0]) (lit "/repo/data") (Some (lit "a.tgz")) sample_world
    = (Resolved None, log MsgTooManyRedirects sample_world) ∧
  downloadAsset (hop_env 5) (VString [0]) (lit "/repo/data") (Some (lit "a.tgz")) sample_world
    = (Resolved (Some (Path.join [lit "/repo/data"; lit "a.tgz"])),
       log (MsgDownloaded (Z.of_nat 5) (Path.join [lit "/repo/data"; lit "a.tgz"]))
         (put_file (Path.join [lit "/repo/data"; lit "a.tgz"]) (lit "archive") sample_world)).
Proof.
  split.
  - apply (C4_redirect_bound (hop_env 6) [0] (lit "/repo/data") [0 + Z.of_nat 6]
             (Some (lit "a.tgz")) sample_world 6).
    + discriminate.
    + vm_compute; reflexivity.
    + simpl. do 6 (eexists _, _, _; split_and!; [reflexivity | reflexivity | discriminate |]).
      reflexivity.
    + lia.
  - apply (C4_redirect_bound (hop_env 5) [0] (lit "/repo/data") [0 + Z.of_nat 5]
             (Some (lit "a.tgz")) sample_world 5) with (statusCode := 200) (location := None).
    + discriminate.
    + vm_compute; reflexivity.
    + simpl. do 5 (eexists _, _, _; split_and!; [reflexivity | reflexivity | discriminate |]).
      reflexivity.
    + lia.
    + reflexivity.
    + lia.
    + reflexivity.
    + reflexivity.
    + apply (proj1 (bool_decide_eq_false _)). vm_compute; reflexivity.
Defined.

(** ** The traversal guard of the extractor *)

Lemma startsWith_app (s p q : jsstring) : startsWith s (p ++ q) = true → startsWith s p = true.
Proof.
  rewrite !startsWith_spec. intros [t ->]. exists (q ++ t). by rewrite app_assoc.
Qed.

Lemma startsWith_refl (s : jsstring) : startsWith s s = true.
Proof. apply startsWith_spec. exists []. by rewrite app_nil_r. Qed.

(** What the guard rejects is outside the destination directory. *)
Lemma filter_rejects_outside (destinationDir filePath : jsstring) (w : world) :
  (filter destinationDir filePath w).1 = false →
  within destinationDir (Path.join [destinationDir; filePath]) = false.
Proof.
  unfold filter, within.
  destruct (startsWith (Path.join [destinationDir; filePath]) destinationDir) eqn:Hs;
    simpl; [done|]. intros _. apply orb_false_iff. split.
  - apply bool_decide_eq_false. intros Heq. rewrite Heq, startsWith_refl in Hs. done.
  - destruct (startsWith _ (destinationDir ++ _)) eqn:Hs'; [|done].
    apply startsWith_app in Hs'. congruence.
Qed.

(** A rejected entry is reported on the console and passed over; the
    extraction goes on with the entries after it. *)
Lemma extract_skips_rejected (E : env) (destinationDir : jsstring) (e : tar_entry)
    (rest : list archive_item) (filenames : list jsstring) (w : world) :
  startsWith (Path.join [destinationDir; entry_path e]) destinationDir = false →
  extract E destinationDir (Item e :: rest) filenames w =
    extract E destinationDir rest filenames (log (MsgTraversal (entry_path e)) w).
Proof. intros Hs. cbn [extract]. unfold filter. by rewrite Hs. Qed.

Lemma extract_keeps_accepted (E : env) (destinationDir : jsstring) (e : tar_entry)
    (rest : list archive_item) (filenames : list jsstring) (w : world) :
  startsWith (Path.join [destinationDir; entry_path e]) destinationDir = true →
  extract E destinationDir (Item e :: rest) filenames w =
    extract E destinationDir rest (onentry filenames e) (unpack_entry E destinationDir e w).
Proof. intros Hs. cbn [extract]. unfold filter. by rewrite Hs. Qed.

(** The entry of the specification's example is skipped with a warning
    and the entry after it is extracted. *)
Example extract_passwd_skipped :
  extract sample_env (lit "/repo/data") [Item passwd_entry; Item json_entry] [] sample_world
  = (Resolved (Some [lit "jmdict-all-3.5.0.json"]),
     log (MsgUnpacked 1 (lit "/repo/data"))
       (put_file (lit "/repo/data/jmdict-all-3.5.0.json") (lit "{dict}")
          (log (MsgTraversal (lit "../../etc/passwd")) sample_world))).
Proof. vm_compute. reflexivity. Qed.

(** C3 at a failing input: with the destination /repo/data, the entry
    ../data-evil/x resolves to /repo/data-evil/x, outside the
    destination; the guard compares string prefixes, keeps the entry and
    prints no warning; the entry is announced, reported among the
    extracted names and handed to the unpacker, which (when tar itself
    accepts the entry) writes it outside the destination. *)
Theorem C3_sibling_prefix_not_skipped :
  Path.join [lit "/repo/data"; entry_path sibling_entry] = lit "/repo/data-evil/x" ∧
  within (lit "/repo/data") (Path.join [lit "/repo/data"; entry_path sibling_entry]) = false ∧
  (∀ w, filter (lit "/repo/data") (entry_path sibling_entry) w = (true, w)) ∧
  (∀ E w, extract E (lit "/repo/data") [Item sibling_entry] [] w
          = (Resolved (Some [lit "../data-evil/x"]),
             log (MsgUnpacked 1 (lit "/repo/data"))
               (unpack_entry E (lit "/repo/data") sibling_entry w))) ∧
  files (unpack_entry sample_env (lit "/repo/data") sibling_entry sample_world)
    !! lit "/repo/data-evil/x" = Some (lit "payload").
Proof.
  split_and!.
  - vm_compute. reflexivity.
  - vm_compute. reflexivity.
  - intros w. reflexivity.
  - intros E w. reflexivity.
  - vm_compute. reflexivity.
Qed.

(** ** The source file that update returns *)

(** C5 at a failing input: the archive lists a directory and then the
    dictionary file in it; the extraction succeeds and returns both
    names; update returns the first name, the directory, and not the
    first file-type entry. *)
Theorem C5_directory_returned_as_source :
  (∀ E w, (extract E (lit "/repo/data") [Item folder_entry; Item nested_json_entry] [] w).1
          = Resolved (Some [lit "jmdict/"; lit "jmdict/jmdict-all-3.5.0.json"])) ∧
  first_file [folder_entry; nested_json_entry] = Some (lit "jmdict/jmdict-all-3.5.0.json") ∧
  (update (release_env [Item folder_entry; Item nested_json_entry])
     (VString (lit "latest")) release_world).1 = Resolved (Some (lit "jmdict/")) ∧
  (∀ f rest, first_extracted (Some (f :: rest)) = Some f).
Proof.
  split_and!.
  - intros E w. reflexivity.
  - reflexivity.
  - vm_compute. reflexivity.
  - reflexivity.
Qed.

Lemma C7_first_matching_asset_witness :
  ∃ result,
    (getAsset (release_env []) owner repo (Some prefix) (Some extension) (lit "latest")
       release_world).1 = Resolved result ∧
    (∀ a, result = Some a ↔
          ∃ before after,
            assets {| assets := Some [zip_asset; tgz_asset] |} = Some (before ++ a :: after) ∧
            name_matches (Some prefix) (Some extension) a ∧
            ∀ b, b ∈ before → ¬ name_matches (Some prefix) (Some extension) b) ∧
    (result = None ↔
       assets {| assets := Some [zip_asset; tgz_asset] |} = None ∨
       assets {| assets := Some [zip_asset; tgz_asset] |} = Some [] ∨
       ∃ l, assets {| assets := Some [zip_asset; tgz_asset] |} = Some l ∧
            ∀ a, a ∈ l → ¬ name_matches (Some prefix) (Some extension) a).
Proof.
  apply (C7_first_matching_asset (release_env []) owner repo (lit "latest")
           (lit "https://api.github.com/repos/scriptin/jmdict-simplified/releases/latest")
           release_body (Some prefix) (Some extension) 200 None
           {| assets := Some [zip_asset; tgz_asset] |} release_world).
  - vm_compute; reflexivity.
  - vm_compute; reflexivity.
  - lia.
  - vm_compute; reflexivity.
Defined.

(* ===================================================================== *)
(** * Further properties of the indexer *)
(* ===================================================================== *)

(** ** The katakana form, again *)

Lemma shifted_outside_block (c : Z) :
  in_hiragana_block (if in_hiragana_block c then fromCharCode (charCodeAt0 c + 0x60) else c)
  = false.
Proof.
  destruct (in_hiragana_block c) eqn:Hin; [|done].
  unfold in_hiragana_block in *. apply andb_prop in Hin as [H1 H2].
  apply Z.leb_le in H1. apply Z.leb_le in H2.
  unfold fromCharCode, charCodeAt0. rewrite Z.mod_small by lia.
  apply andb_false_iff. right. apply Z.leb_gt. lia.
Qed.

(** X1: the katakana form has the length of the reading and no code
    unit of the hiragana block left; deriving it a second time changes
    nothing, and a reading without hiragana is its own katakana form. *)
Theorem katakana_form_stable (text : jsstring) :
  length (replace_hiragana text) = length text ∧
  (∀ c, c ∈ replace_hiragana text → in_hiragana_block c = false) ∧
  replace_hiragana (replace_hiragana text) = replace_hiragana text ∧
  ((∀ c, c ∈ text → in_hiragana_block c = false) → replace_hiragana text = text).
Proof.
  unfold replace_hiragana. split_and!.
  - apply length_map.
  - intros c Hc. apply list_elem_of_In, in_map_iff in Hc as (c0 & <- & _).
    apply shifted_outside_block.
  - rewrite List.map_map. apply List.map_ext. intros c.
    by rewrite shifted_outside_block.
  - intros Hnone. rewrite <- (List.map_id text) at 2. apply List.map_ext_in.
    intros c Hc. by rewrite (Hnone c) by by apply list_elem_of_In.
Qed.

(** ** What the index holds *)

Lemma keyed_from_weaken (P Q : entry → Prop) (h : gmap jsstring bucket) :
  (∀ e, P e → Q e) → keyed_from P h → keyed_from Q h.
Proof.
  intros HPQ Hh key b Hb. destruct (Hh key b Hb) as [Hk (e & kana & ? & ? & ?)].
  split; [done|]. exists e, kana. split_and!; [by apply HPQ | done..].
Qed.

Lemma add_entry_keyed_from (P : entry → Prop) (h h' : gmap jsstring bucket) (e : entry) :
  keyed_from P h → add_entry h e = Some h' → keyed_from (λ x, P x ∨ x = e) h'.
Proof.
  intros Hh. unfold add_entry.
  apply (forEach_invariant_elem (keyed_from (λ x, P x ∨ x = e))).
  - intros s kana s' Hkana Hs [_ ->]%add_kana_Some key b.
    destruct (decide (text kana = key)) as [<-|Hne].
    + rewrite lookup_insert_eq. intros [= <-]. simpl. split.
      * destruct (s !! text kana) as [b0|] eqn:Hb0; simpl.
        -- destruct (Hs _ _ Hb0) as [-> _]. apply set_add_member. left.
        -- unfold set_add, set_has.
           by rewrite bool_decide_eq_false_2 by apply not_elem_of_nil.
      * exists e, kana. split_and!; [by right | done..].
    + rewrite lookup_insert_ne by done. apply Hs.
  - eapply keyed_from_weaken; [|done]. by left.
Qed.

Lemma forEach_add_entry_keyed_from (words : list entry) (P : entry → Prop)
    (h h' : gmap jsstring bucket) :
  keyed_from P h → forEach add_entry words h = Some h' →
  keyed_from (λ x, P x ∨ x ∈ words) h'.
Proof.
  revert P h. induction words as [|e words IH]; intros P h Hh Hrun; simpl in Hrun.
  - injection Hrun as <-. eapply keyed_from_weaken; [|done]. by left.
  - destruct (add_entry h e) as [h1|] eqn:H1; [|done].
    pose proof (IH _ _ (add_entry_keyed_from P h h1 e Hh H1) Hrun) as Hfin.
    eapply keyed_from_weaken; [|done]. simpl.
    intros x [[?| ->]|?]; [by left | right; left | right; by right].
Qed.

Lemma build_h2kk_keyed (d : jmdict) (h : gmap jsstring bucket) :
  build_h2kk d = Some h →
  ∀ key b, h !! key = Some b →
    katakana b = [replace_hiragana key] ∧ reading_of (jm_words d) key.
Proof.
  intros Hbuild key b Hb.
  assert (Hempty : keyed_from (λ _, False) (∅ : gmap jsstring bucket)).
  { intros key' b' Hb'. by rewrite lookup_empty in Hb'. }
  destruct (forEach_add_entry_keyed_from _ _ _ _ Hempty Hbuild key b Hb)
    as [Hk (e & kana & [[]|He] & Hkana & Hkey)].
  split; [done|]. by exists e, kana.
Qed.

Lemma build_h2kk_keys (d : jmdict) (h : gmap jsstring bucket) :
  build_h2kk d = Some h →
  ∀ key, is_Some (h !! key) ↔ reading_of (jm_words d) key.
Proof.
  intros Hbuild key. split.
  - intros [b Hb]. by destruct (build_h2kk_keyed d h Hbuild key b Hb).
  - intros (e & kana & He & Hkana & <-).
    destruct (build_h2kk_covers d h Hbuild e kana He Hkana) as [_ (b & Hb & _)].
    by exists b.
Qed.

Lemma build_h2kk_kanji (d : jmdict) (h : gmap jsstring bucket) :
  build_h2kk d = Some h →
  ∀ key b k, h !! key = Some b → (k ∈ kanji b ↔ lists_kanji (jm_words d) key k).
Proof.
  intros Hbuild key b k Hb. split.
  - intros Hk.
    assert (Hempty : kanji_from (λ _, False) (∅ : gmap jsstring bucket)).
    { intros key' b' k' Hb'. by rewrite lookup_empty in Hb'. }
    destruct (forEach_add_entry_kanji_from _ _ _ _ Hempty Hbuild key b k Hb Hk)
      as (e & kana & [[]|He] & Hkana & Hkey & Hkj).
    by exists e, kana.
  - intros (e & kana & He & Hkana & <- & Hk).
    destruct (build_h2kk_covers d h Hbuild e kana He Hkana) as [_ (b' & Hb' & _ & Hall)].
    rewrite Hb in Hb'. injection Hb' as <-. by apply Hall.
Qed.

(** X2: every bucket of the output has exactly one katakana form, the
    katakana form of its own key. *)
Theorem bucket_katakana_is_form_of_key (d : jmdict) (h2kk : gmap jsstring bucket) :
  build_h2kk d = Some h2kk →
  ∀ key w, out_words (finalOutput d h2kk) !! key = Some w →
           word_katakana w = [replace_hiragana key].
Proof.
  intros Hbuild key w. rewrite out_words_spread, lookup_fmap.
  destruct (h2kk !! key) as [b|] eqn:Hb; simpl; [|done].
  intros [= <-]. simpl. by destruct (build_h2kk_keyed d h2kk Hbuild key b Hb).
Qed.

Lemma bucket_katakana_is_form_of_key_witness :
  build_h2kk sample_dict = Some sample_h2kk ∧
  ∀ key w, out_words (finalOutput sample_dict sample_h2kk) !! key = Some w →
           word_katakana w = [replace_hiragana key].
Proof.
  assert (H : build_h2kk sample_dict = Some sample_h2kk) by (vm_compute; reflexivity).
  split; [exact H|].
  exact (bucket_katakana_is_form_of_key sample_dict sample_h2kk H).
Defined.

(** X3: the keys of the output are exactly the kana texts of the
    entries: no reading is lost and no key is invented. *)
Theorem output_keys_are_the_readings (d : jmdict) (h2kk : gmap jsstring bucket) :
  build_h2kk d = Some h2kk →
  ∀ key, key ∈ dom (out_words (finalOutput d h2kk)) ↔ reading_of (jm_words d) key.
Proof.
  intros Hbuild key. rewrite out_words_spread, dom_fmap_L, elem_of_dom.
  by apply build_h2kk_keys.
Qed.

Lemma output_keys_are_the_readings_witness :
  build_h2kk sample_dict = Some sample_h2kk ∧
  ∀ key, key ∈ dom (out_words (finalOutput sample_dict sample_h2kk))
         ↔ reading_of (jm_words sample_dict) key.
Proof.
  assert (H : build_h2kk sample_dict = Some sample_h2kk) by (vm_compute; reflexivity).
  split; [exact H|].
  exact (output_keys_are_the_readings sample_dict sample_h2kk H).
Defined.

(** X4: the kanji array of a bucket holds exactly the kanji spellings of
    the entries that have the bucket's key as a reading. *)
Theorem bucket_kanji_are_those_of_its_reading (d : jmdict) (h2kk : gmap jsstring bucket) :
  build_h2kk d = Some h2kk →
  ∀ key w k, out_words (finalOutput d h2kk) !! key = Some w →
             (k ∈ word_kanji w ↔ lists_kanji (jm_words d) key k).
Proof.
  intros Hbuild key w k. rewrite out_words_spread, lookup_fmap.
  destruct (h2kk !! key) as [b|] eqn:Hb; simpl; [|done].
  intros [= <-]. simpl. by apply (build_h2kk_kanji d h2kk).
Qed.

Lemma bucket_kanji_are_those_of_its_reading_witness :
  build_h2kk sample_dict = Some sample_h2kk ∧
  ∀ key w k, out_words (finalOutput sample_dict sample_h2kk) !! key = Some w →
             (k ∈ word_kanji w ↔ lists_kanji (jm_words sample_dict) key k).
Proof.
  assert (H : build_h2kk sample_dict = Some sample_h2kk) by (vm_compute; reflexivity).
  split; [exact H|].
  exact (bucket_kanji_are_those_of_its_reading sample_dict sample_h2kk H).
Defined.

(** ** The order of the entries *)

Lemma reading_of_perm (words words' : list entry) (key : jsstring) :
  words ≡ₚ words' → reading_of words key → reading_of words' key.
Proof.
  intros Hperm (e & kana & He & ? & ?). exists e, kana. by rewrite <- Hperm.
Qed.

Lemma lists_kanji_perm (words words' : list entry) (key k : jsstring) :
  words ≡ₚ words' → lists_kanji words key k → lists_kanji words' key k.
Proof.
  intros Hperm (e & kana & He & ? & ? & ?). exists e, kana. by rewrite <- Hperm.
Qed.

(** X5: the order of the entries in the source does not matter for what
    the output holds: a dictionary with the same entries in another
    order is indexed as well, with the same keys and, in every bucket,
    the same members (possibly in another order). *)
Theorem index_independent_of_entry_order
    (version dictDate : jsstring) (words words' : list entry) (h2kk : gmap jsstring bucket) :
  words ≡ₚ words' →
  build_h2kk (Jmdict version dictDate words) = Some h2kk →
  ∃ h2kk',
    build_h2kk (Jmdict version dictDate words') = Some h2kk' ∧
    same_words (out_words (finalOutput (Jmdict version dictDate words) h2kk))
               (out_words (finalOutput (Jmdict version dictDate words') h2kk')).
Proof.
  intros Hperm Hbuild.
  assert (Hown : own_readings words').
  { pose proof (proj1 (build_h2kk_Some_iff _) (mk_is_Some _ _ Hbuild)) as Hown.
    intros e kana He. apply Hown. simpl. by rewrite Hperm. }
  destruct (proj2 (build_h2kk_Some_iff (Jmdict version dictDate words')) Hown)
    as [h2kk' Hbuild'].
  exists h2kk'. split; [done|]. rewrite !out_words_spread. split.
  - apply set_eq. intros key. rewrite !dom_fmap_L, !elem_of_dom.
    rewrite (build_h2kk_keys _ _ Hbuild), (build_h2kk_keys _ _ Hbuild'). simpl.
    split; apply reading_of_perm; [done | by symmetry].
  - intros key a b. rewrite !lookup_fmap.
    destruct (h2kk !! key) as [ba|] eqn:Hba; simpl; [|done].
    destruct (h2kk' !! key) as [bb|] eqn:Hbb; simpl; [|done].
    intros [= <-] [= <-]. simpl. split.
    + destruct (build_h2kk_keyed _ _ Hbuild key ba Hba) as [-> _].
      by destruct (build_h2kk_keyed _ _ Hbuild' key bb Hbb) as [-> _].
    + apply NoDup_Permutation.
      * apply (build_h2kk_deduplicated _ _ Hbuild key ba Hba).
      * apply (build_h2kk_deduplicated _ _ Hbuild' key bb Hbb).
      * intros k. rewrite (build_h2kk_kanji _ _ Hbuild key ba k Hba),
          (build_h2kk_kanji _ _ Hbuild' key bb k Hbb). simpl.
        split; apply lists_kanji_perm; [done | by symmetry].
Qed.

Lemma index_independent_of_entry_order_witness :
  [love_entry; indigo_entry] ≡ₚ [indigo_entry; love_entry] ∧
  build_h2kk (Jmdict (lit "1") (lit "2024") [love_entry; indigo_entry])
    = Some {[ s_ai_hira := {| katakana := [s_ai_kata]; kanji := [[0x611B]; [0x85CD]] |} ]} ∧
  ∃ h2kk',
    build_h2kk (Jmdict (lit "1") (lit "2024") [indigo_entry; love_entry]) = Some h2kk' ∧
    same_words
      (out_words (finalOutput (Jmdict (lit "1") (lit "2024") [love_entry; indigo_entry])
                    {[ s_ai_hira := {| katakana := [s_ai_kata];
                                       kanji := [[0x611B]; [0x85CD]] |} ]}))
      (out_words (finalOutput (Jmdict (lit "1") (lit "2024") [indigo_entry; love_entry])
                    h2kk')).
Proof.
  assert (Hp : [love_entry; indigo_entry] ≡ₚ [indigo_entry; love_entry])
    by apply Permutation_swap.
  assert (Hb : build_h2kk (Jmdict (lit "1") (lit "2024") [love_entry; indigo_entry])
               = Some {[ s_ai_hira := {| katakana := [s_ai_kata];
                                         kanji := [[0x611B]; [0x85CD]] |} ]})
    by (vm_compute; reflexivity).
  split; [exact Hp|]. split; [exact Hb|].
  exact (index_independent_of_entry_order (lit "1") (lit "2024") _ _ _ Hp Hb).
Defined.

(** ** What a run of convert does to the file system *)

Lemma compress_frame (E : env) (out gz : jsstring) (w : world) :
  dirs (compress E out gz w).2 = dirs w ∧
  ∀ p, p ≠ gz → files (compress E out gz w).2 !! p = files w !! p.
Proof.
  unfold compress, dispatch. destruct (gzip_stage E); simpl.
  - destruct (files w !! out); simpl; (split; [done|]); intros p Hp;
      [by rewrite lookup_insert_ne | done].
  - destruct (gzip_partial E); simpl; (split; [done|]); intros p Hp;
      [by rewrite lookup_insert_ne | done].
Qed.



(** X7: in every run, however it ends, convert creates and removes no
    directory and leaves every file other than its two output files as it
    was; in particular it never changes the source file unless that is
    one of the output paths. *)
Theorem convert_touches_only_its_outputs (E : env) (fileName : value) (w : world) :
  dirs (convert E fileName w).2 = dirs w ∧
  ∀ p, files (convert E fileName w).2 !! p = files w !! p ∨
       p = outputFilePath E ∨ p = gzippedOutputFilePath E.
Proof.
  assert (Hdec : ∀ p, (p ≠ outputFilePath E ∧ p ≠ gzippedOutputFilePath E) ∨
                      p = outputFilePath E ∨ p = gzippedOutputFilePath E).
  { intros p. destruct (decide (p = outputFilePath E)); [by right; left|].
    destruct (decide (p = gzippedOutputFilePath E)); [by right; right | by left]. }
  unfold convert.
  destruct fileName as [| b | [|c f]]; simpl; try (split; [done|]; by left).
  destruct (Bool.eqb _ false); simpl; [split; [done|]; by left|].
  destruct (readFile _ _ _) as [data|]; simpl; [|split; [done|]; by left].
  destruct (JSON_parse E data) as [[| d | |]|]; simpl; try (split; [done|]; by left).
  destruct (build_h2kk d) as [h|]; simpl; [|split; [done|]; by left].
  unfold writeFile. destruct (write_error E _ || _); simpl; [split; [done|]; by left|].
  match goal with |- context [compress E ?o ?g ?w0] =>
    destruct (compress_frame E o g w0) as [Hd Hf] end.
  split; [by rewrite Hd|]. intros p.
  destruct (Hdec p) as [[Hout Hgz]|Hp]; [left | by right].
  rewrite Hf by done. simpl. by rewrite lookup_insert_ne.
Qed.

(** X8: when convert resolves true, the plain output file holds the
    serialized index of the source file, the compressed file holds the
    compression of exactly that text, and nothing else has changed. *)
Theorem successful_run_outputs (E : env) (fileName : jsstring) (w w' : world) :
  convert E (VString fileName) w = (Resolved true, w') →
  ∃ o, indexed E fileName w = Some o ∧
       dirs w' = dirs w ∧
       files w' = <[gzippedOutputFilePath E := gzip_bytes E (JSON_stringify E o)]>
                    (<[outputFilePath E := JSON_stringify E o]> (files w)).
Proof.
  intros (data & d & h & Hre & Hfile & Hparse & Hh & _ & Hd & Hf)%convert_true_inv.
  exists (finalOutput d h). split_and!; [by eapply indexed_of_source | done | done].
Qed.

Lemma successful_run_outputs_witness :
  convert sample_env (VString (lit "dict.json")) sample_world
    = (Resolved true, sample_world_after) ∧
  ∃ o, indexed sample_env (lit "dict.json") sample_world = Some o ∧
       dirs sample_world_after = dirs sample_world ∧
       files sample_world_after
         = <[gzippedOutputFilePath sample_env
               := gzip_bytes sample_env (JSON_stringify sample_env o)]>
             (<[outputFilePath sample_env := JSON_stringify sample_env o]>
                (files sample_world)).
Proof.
  assert (H : convert sample_env (VString (lit "dict.json")) sample_world
              = (Resolved true, sample_world_after)) by (vm_compute; reflexivity).
  split; [exact H|].
  exact (successful_run_outputs _ _ _ _ H).
Defined.

(** X9: a source that is readable and parses, but in which some kana
    text is the name of a member of Object.prototype (constructor,
    toString, __proto__, ...), makes the loop throw inside the read
    callback: the promise is never resolved and nothing is written, not
    even for the entries before that reading. *)
Theorem prototype_reading_aborts_run (E : env) (fileName data : jsstring) (d : jmdict)
    (e : entry) (kana : element) (w : world) :
  fileName ≠ [] →
  files w !! inputFilePath E fileName = Some data →
  read_error E (inputFilePath E fileName) = false →
  JSON_parse E data = Some (JDictionary d) →
  e ∈ jm_words d →
  kana ∈ default [] (entry_kana e) →
  inherited (text kana) = true →
  convert E (VString fileName) w = (Uncaught, log (MsgConverting fileName) w).
Proof.
  intros Hname Hfile Hread Hparse He Hkana Hin.
  assert (Hnone : build_h2kk d = None).
  { destruct (build_h2kk d) as [h|] eqn:Hb; [|done].
    pose proof (proj1 (build_h2kk_Some_iff d) (mk_is_Some _ _ Hb) e kana He Hkana).
    congruence. }
  unfold convert. destruct fileName as [|c f]; [done|].
  assert (Hex : existsSync (log (MsgConverting (c :: f)) w)
                  (VString (inputFilePath E (c :: f))) = true).
  { cbn [existsSync log files]. apply orb_true_iff. left. apply bool_decide_eq_true.
    apply elem_of_dom. by rewrite Hfile. }
  rewrite Hex. cbn [Bool.eqb existsSync]. unfold readFile. rewrite Hread.
  cbn [log files]. by rewrite Hfile, Hparse, Hnone.
Qed.

Lemma prototype_reading_aborts_run_witness :
  convert constructor_env (VString (lit "dict.json")) sample_world
    = (Uncaught, log (MsgConverting (lit "dict.json")) sample_world).
Proof.
  apply (prototype_reading_aborts_run constructor_env (lit "dict.json") (lit "{dict}")
           constructor_dict
           {| entry_kanji := None; entry_kana := Some [Element (lit "constructor")] |}
           (Element (lit "constructor")) sample_world).
  - discriminate.
  - vm_compute; reflexivity.
  - reflexivity.
  - reflexivity.
  - right. left.
  - left.
  - vm_compute; reflexivity.
Defined.

(* ===================================================================== *)
(** * Further properties of the updater *)
(* ===================================================================== *)

(** ** The extraction chain *)

Lemma extract_item (E : env) (destinationDir : jsstring) (e : tar_entry)
    (rest : list archive_item) (filenames : list jsstring) (w : world) :
  extract E destinationDir (Item e :: rest) filenames w =
    if kept destinationDir e
    then extract E destinationDir rest
           (if reported e then filenames ++ [entry_path e] else filenames)
           (unpack_entry E destinationDir e w)
    else extract E destinationDir rest filenames (log (MsgTraversal (entry_path e)) w).
Proof.
  cbn [extract]. unfold filter, kept, onentry, reported.
  destruct (startsWith _ destinationDir); simpl; [|done].
  by destruct (entry_type_of e).
Qed.

(** Without failure the chain resolves the paths of the file and
    directory entries that passed the guard, in the order of the
    archive. *)
Lemma extract_names (E : env) (destinationDir : jsstring)
    (entries : list tar_entry) (filenames : list jsstring) (w : world) :
  (extract E destinationDir (Item <$> entries) filenames w).1 =
    Resolved (Some (filenames ++
      List.map entry_path
        (List.filter (λ e, kept destinationDir e && reported e) entries))).
Proof.
  revert filenames w. induction entries as [|e entries IH]; intros filenames w.
  - simpl. by rewrite app_nil_r.
  - rewrite fmap_cons, extract_item. cbn [List.filter].
    destruct (kept destinationDir e); cbn [andb]; [|apply IH].
    destruct (reported e); rewrite IH; [|done].
    cbn [List.map]. by rewrite <- app_assoc.
Qed.

(** X11: the extraction resolves null exactly when one of the three
    streams fails somewhere in the archive; rejected entries never make
    it fail, and it never leaves the promise unsettled. *)
Theorem extract_null_iff_stream_failure (E : env) (destinationDir : jsstring)
    (items : list archive_item) (filenames : list jsstring) (w : world) :
  ((extract E destinationDir items filenames w).1 = Resolved None ↔
     ∃ s, Failure s ∈ items) ∧
  (extract E destinationDir items filenames w).1 ≠ Uncaught.
Proof.
  revert filenames w. induction items as [|[e|s] items IH]; intros filenames w.
  - simpl. split; [|done]. split; [done|]. intros [s Hs]. by apply elem_of_nil in Hs.
  - rewrite extract_item.
    assert (Hiff : (∃ s, Failure s ∈ Item e :: items) ↔ ∃ s, Failure s ∈ items).
    { split; intros [s Hs]; exists s; [|by right].
      by apply elem_of_cons in Hs as [?|?]. }
    rewrite Hiff. destruct (kept destinationDir e); apply IH.
  - simpl. split; [|done]. split; [|done]. intros _. exists s. left.
Qed.


Lemma unpack_entry_frame (E : env) (destinationDir : jsstring) (e : tar_entry)
    (w : world) (p : jsstring) :
  kept destinationDir e = true →
  (files (unpack_entry E destinationDir e w) !! p = files w !! p ∨
   startsWith p destinationDir = true) ∧
  (p ∈ dirs (unpack_entry E destinationDir e w) →
   p ∈ dirs w ∨ startsWith p destinationDir = true).
Proof.
  intros Hkept. unfold kept in Hkept. unfold unpack_entry.
  destruct (tar_accepts E e); [|by split; [left | left]].
  destruct (entry_type_of e); simpl; try (by split; [left | left]).
  - split; [|by left].
    destruct (decide (Path.join [destinationDir; entry_path e] = p)) as [<-|Hne];
      [by right | left; by rewrite lookup_insert_ne].
  - split; [by left|]. intros [->%elem_of_singleton|?]%elem_of_union; [by right | by left].
Qed.

(** X13: the extraction writes files and creates directories only at
    paths that begin with the text of the destination directory; every
    other path of the file system is as it was. *)
Theorem extract_writes_only_under_destination_prefix (E : env) (destinationDir : jsstring)
    (items : list archive_item) (filenames : list jsstring) (w : world) (p : jsstring) :
  (files (extract E destinationDir items filenames w).2 !! p = files w !! p ∨
   startsWith p destinationDir = true) ∧
  (p ∈ dirs (extract E destinationDir items filenames w).2 →
   p ∈ dirs w ∨ startsWith p destinationDir = true).
Proof.
  revert filenames w. induction items as [|[e|s] items IH]; intros filenames w.
  - simpl. split; [by left | by left].
  - rewrite extract_item. destruct (kept destinationDir e) eqn:Hkept.
    + destruct (IH (if reported e then filenames ++ [entry_path e] else filenames)
                  (unpack_entry E destinationDir e w)) as [Hf Hd].
      destruct (unpack_entry_frame E destinationDir e w p Hkept) as [Hf0 Hd0].
      split.
      * destruct Hf as [->|?]; [done | by right].
      * intros Hin. destruct (Hd Hin) as [?|?]; [by apply Hd0 | by right].
    + apply (IH filenames (log (MsgTraversal (entry_path e)) w)).
  - simpl. split; [by left | by left].
Qed.

(** X14: the guard has no false alarm: an entry whose joined path is
    the destination directory or lies below it is kept, and no warning is
    printed for it. *)
Theorem filter_keeps_entries_within_destination (destinationDir filePath : jsstring)
    (w : world) :
  within destinationDir (Path.join [destinationDir; filePath]) = true →
  filter destinationDir filePath w = (true, w).
Proof.
  intros Hwithin. unfold filter.
  destruct (startsWith (Path.join [destinationDir; filePath]) destinationDir) eqn:Hs;
    [done|].
  assert (Hout : (filter destinationDir filePath w).1 = false)
    by (unfold filter; by rewrite Hs).
  apply filter_rejects_outside in Hout. congruence.
Qed.

Lemma filter_keeps_entries_within_destination_witness :
  within (lit "/repo/data")
    (Path.join [lit "/repo/data"; lit "jmdict/jmdict-all-3.5.0.json"]) = true ∧
  filter (lit "/repo/data") (lit "jmdict/jmdict-all-3.5.0.json") sample_world
    = (true, sample_world).
Proof.
  assert (H : within (lit "/repo/data")
                (Path.join [lit "/repo/data"; lit "jmdict/jmdict-all-3.5.0.json"]) = true)
    by (vm_compute; reflexivity).
  split; [exact H|].
  exact (filter_keeps_entries_within_destination _ _ sample_world H).
Defined.

(** ** What a download does to the file system *)

Lemma save_response_outcome (E : env) (dir : jsstring) (fn : option jsstring)
    (url body : jsstring) (statusCode c : Z) (location : option jsstring) (w : world) :
  https_get E url = HttpResponse statusCode location body →
  is_2xx statusCode = true →
  download_outcome E dir fn w (save_response E dir fn url c body w).
Proof.
  intros Hget H2. unfold save_response, download_outcome.
  destruct (if truthy_opt fn then fn else url_basename E url) as [name|] eqn:Hname;
    [|done].
  destruct (write_error E _ || _); simpl.
  - split; [done|]. intros p c0 Hp. by apply lookup_delete_Some in Hp as [_ ?].
  - split; [done|]. by exists url, statusCode, location, body, name.
Qed.

Lemma doDownload_outcome (E : env) (dir : jsstring) (fn : option jsstring) (w : world)
    (n : nat) :
  ∀ (url : jsstring) (c : Z) r,
    (Z.to_nat (6 - c) <= n)%nat →
    doDownload E dir fn w url c = Some r → download_outcome E dir fn w r.
Proof.
  induction n as [|n IH]; intros url c r Hn Hrun.
  - rewrite doDownload_too_many in Hrun by lia. injection Hrun as <-. split; simpl; done.
  - destruct (Z_gt_dec c 5) as [Hc|Hc].
    { rewrite doDownload_too_many in Hrun by done. injection Hrun as <-. split; simpl; done. }
    rewrite doDownload_request in Hrun by lia.
    destruct (https_get E url) as [| |statusCode location body] eqn:Hget; [done| |].
    { injection Hrun as <-. split; simpl; done. }
    destruct (is_2xx statusCode) eqn:H2.
    { injection Hrun as <-. by eapply save_response_outcome. }
    destruct (is_3xx statusCode && truthy_opt location).
    + destruct (doDownload E dir fn w (default [] location) (c + 1)) as [r1|] eqn:Hrec.
      * injection Hrun as <-. eapply (IH _ (c + 1)); [lia | done].
      * injection Hrun as <-. split; simpl; done.
    + injection Hrun as <-. split; simpl; done.
Qed.

Lemma downloadAsset_outcome (E : env) (fileUrl : value) (dir : jsstring)
    (fn : option jsstring) (w : world) :
  download_outcome E dir fn w (downloadAsset E fileUrl dir fn w).
Proof.
  unfold downloadAsset. destruct fileUrl as [| b | [|u us]]; try (split; simpl; done).
  destruct (negb _); [split; simpl; done|].
  destruct (doDownload E dir fn w (u :: us) 0) as [r|] eqn:Hrun; [|split; simpl; done].
  apply (doDownload_outcome E dir fn w (Z.to_nat 6) (u :: us) 0 r); [simpl; lia | exact Hrun].
Qed.



(** X16: a download that resolves a path has written exactly one file:
    the body of a 2xx response, at the download directory joined with
    the given file name (with the last segment of the final URL when no
    name is given); every other file and all directories are as
    before. *)
Theorem successful_download_writes_the_response (E : env) (fileUrl : value)
    (downloadDir filePath : jsstring) (filename : option jsstring) (w w' : world) :
  downloadAsset E fileUrl downloadDir filename w = (Resolved (Some filePath), w') →
  dirs w' = dirs w ∧
  ∃ finalUrl statusCode location body fileName,
    https_get E finalUrl = HttpResponse statusCode location body ∧
    is_2xx statusCode = true ∧
    (if truthy_opt filename then filename else url_basename E finalUrl) = Some fileName ∧
    filePath = Path.join [downloadDir; fileName] ∧
    files w' = <[filePath := body]> (files w).
Proof.
  intros Hrun. pose proof (downloadAsset_outcome E fileUrl downloadDir filename w) as Hout.
  by rewrite Hrun in Hout.
Qed.

Lemma successful_download_writes_the_response_witness :
  downloadAsset (hop_env 5) (VString [0]) (lit "/repo/data") (Some (lit "a.tgz")) sample_world
    = (Resolved (Some (lit "/repo/data/a.tgz")),
       log (MsgDownloaded 5 (lit "/repo/data/a.tgz"))
         (put_file (lit "/repo/data/a.tgz") (lit "archive") sample_world)) ∧
  dirs (log (MsgDownloaded 5 (lit "/repo/data/a.tgz"))
          (put_file (lit "/repo/data/a.tgz") (lit "archive") sample_world))
    = dirs sample_world ∧
  ∃ finalUrl statusCode location body fileName,
    https_get (hop_env 5) finalUrl = HttpResponse statusCode location body ∧
    is_2xx statusCode = true ∧
    (if truthy_opt (Some (lit "a.tgz")) then Some (lit "a.tgz")
     else url_basename (hop_env 5) finalUrl) = Some fileName ∧
    lit "/repo/data/a.tgz" = Path.join [lit "/repo/data"; fileName] ∧
    files (log (MsgDownloaded 5 (lit "/repo/data/a.tgz"))
             (put_file (lit "/repo/data/a.tgz") (lit "archive") sample_world))
      = <[lit "/repo/data/a.tgz" := body]> (files sample_world).
Proof.
  assert (H : downloadAsset (hop_env 5) (VString [0]) (lit "/repo/data")
                (Some (lit "a.tgz")) sample_world
              = (Resolved (Some (lit "/repo/data/a.tgz")),
                 log (MsgDownloaded 5 (lit "/repo/data/a.tgz"))
                   (put_file (lit "/repo/data/a.tgz") (lit "archive") sample_world)))
    by (vm_compute; reflexivity).
  split; [exact H|].
  exact (successful_download_writes_the_response _ _ _ _ _ _ _ H).
Defined.

(** ** What unpackAsset resolves *)

Lemma extract_Some_no_failure (E : env) (destinationDir : jsstring)
    (items : list archive_item) (filenames names : list jsstring) (w : world) :
  (extract E destinationDir items filenames w).1 = Resolved (Some names) →
  ∃ entries, items = Item <$> entries.
Proof.
  revert filenames w. induction items as [|[e|s] items IH]; intros filenames w Hrun.
  - by exists [].
  - rewrite extract_item in Hrun.
    destruct (kept destinationDir e); apply IH in Hrun as [entries ->];
      by exists (e :: entries).
  - done.
Qed.

Lemma unpackAsset_Some_inv (E : env) (tarGzFilePath destinationDir : jsstring)
    (names : list jsstring) (w w' : world) :
  unpackAsset E tarGzFilePath destinationDir w = (Resolved (Some names), w') →
  ∃ archive entries,
    files w !! tarGzFilePath = Some archive ∧
    untar E archive = Item <$> entries ∧
    names = List.map entry_path
              (List.filter (λ e, kept destinationDir e && reported e) entries).
Proof.
  unfold unpackAsset. intros Hrun.
  destruct (Bool.eqb _ false); [discriminate|].
  destruct (Bool.eqb _ false); [discriminate|].
  destruct (files w !! tarGzFilePath) as [archive|] eqn:Hfile; [|discriminate].
  assert (H1 : (extract E destinationDir (untar E archive) [] w).1 = Resolved (Some names))
    by by rewrite Hrun.
  destruct (extract_Some_no_failure _ _ _ _ _ _ H1) as [entries Hitems].
  exists archive, entries. split_and!; [done..|].
  rewrite Hitems, extract_names in H1. by injection H1 as <-.
Qed.

(** X10: when unpackAsset resolves a list, the archive existed and was
    read to its end without a stream failure, and the list is the paths
    of its file and directory entries that passed the guard, in the
    order of the archive; links and other entry types are not listed. *)
Theorem unpacked_names_are_kept_entries_in_order (E : env)
    (tarGzFilePath destinationDir : jsstring) (names : list jsstring) (w w' : world) :
  unpackAsset E tarGzFilePath destinationDir w = (Resolved (Some names), w') →
  ∃ archive entries,
    files w !! tarGzFilePath = Some archive ∧
    untar E archive = Item <$> entries ∧
    names = List.map entry_path
              (List.filter (λ e, kept destinationDir e && reported e) entries).
Proof.
  intros Hrun.
  destruct (unpackAsset_Some_inv E tarGzFilePath destinationDir names w w' Hrun)
    as (archive & entries & Hfile & Huntar & Hnames).
  exists archive, entries. by split_and!.
Qed.

Lemma unpacked_names_are_kept_entries_in_order_witness :
  ∃ w',
    unpackAsset (release_env mixed_archive) (lit "/repo/data/all.tgz") (lit "/repo/data")
      archive_world
      = (Resolved (Some [lit "jmdict/"; lit "jmdict/jmdict-all-3.5.0.json"]), w') ∧
    ∃ archive entries,
      files archive_world !! lit "/repo/data/all.tgz" = Some archive ∧
      untar (release_env mixed_archive) archive = Item <$> entries ∧
      [lit "jmdict/"; lit "jmdict/jmdict-all-3.5.0.json"]
        = List.map entry_path
            (List.filter (λ e, kept (lit "/repo/data") e && reported e) entries).
Proof.
  eexists. 
  assert (H : unpackAsset (release_env mixed_archive) (lit "/repo/data/all.tgz")
                (lit "/repo/data") archive_world
              = (Resolved (Some [lit "jmdict/"; lit "jmdict/jmdict-all-3.5.0.json"]),
                 (unpackAsset (release_env mixed_archive) (lit "/repo/data/all.tgz")
                    (lit "/repo/data") archive_world).2))
    by (vm_compute; reflexivity).
  split; [exact H|].
  exact (unpacked_names_are_kept_entries_in_order _ _ _ _ _ _ H).
Defined.

(** ** The release resolver, read backwards *)





(** ** The whole update and the whole build *)

Lemma update_string_removes_archive (E : env) (tag f : jsstring) (w w' : world) :
  update E (VString tag) w = (Resolved (Some f), w') →
  ∃ a, (getAsset E owner repo (Some prefix) (Some extension) tag
          (log (MsgUpdating tag) w)).1 = Resolved (Some a) ∧
       existsSync w'
         (VString (Path.join [Path.join [__dirname E; dataFolder]; asset_name a])) = false.
Proof.
  unfold update, await. cbv zeta.
  destruct (getAsset _ _ _ _ _ _ _) as [[[a|]|] w0]; try discriminate.
  destruct (downloadAsset _ _ _ _ _) as [[[file|]|] w1]; try discriminate.
  destruct (unpackAsset _ _ _ _) as [[names|] w2]; try discriminate.
  destruct (existsSync w2 _) eqn:Hex.
  - destruct (rm_error E _ || _) eqn:Hrm; [discriminate|].
    intros [= _ <-]. exists a. split; [done|].
    apply orb_false_iff in Hrm as [_ Hdir]. cbn [existsSync drop_file files dirs].
    rewrite Hdir, orb_false_r. apply bool_decide_eq_false.
    rewrite elem_of_dom, lookup_delete_eq. by intros [? ?].
  - intros [= _ <-]. by exists a.
Qed.

(** X18: when update resolves a file name, the downloaded archive is
    gone: at the path of the asset that getAsset resolved, in the data
    folder, there is neither a file nor a directory. *)
Theorem update_leaves_no_archive (E : env) (tag : value) (f : jsstring) (w w' : world) :
  update E tag w = (Resolved (Some f), w') →
  ∃ t a,
    (tag = VString t ∨ (tag = VUndefined ∧ t = _tag E)) ∧
    (getAsset E owner repo (Some prefix) (Some extension) t
       (log (MsgUpdating t) w)).1 = Resolved (Some a) ∧
    existsSync w'
      (VString (Path.join [Path.join [__dirname E; dataFolder]; asset_name a])) = false.
Proof.
  destruct tag as [| b | t]; intros Hrun.
  - apply (update_string_removes_archive E (_tag E)) in Hrun as (a & ? & ?).
    exists (_tag E), a. split_and!; [by right | done | done].
  - discriminate.
  - apply update_string_removes_archive in Hrun as (a & ? & ?).
    exists t, a. split_and!; [by left | done | done].
Qed.

Lemma update_leaves_no_archive_witness :
  ∃ w',
    update (release_env [Item json_entry]) VUndefined release_world
      = (Resolved (Some (lit "jmdict-all-3.5.0.json")), w') ∧
    ∃ t a,
      (VUndefined = VString t ∨
       (@eq value VUndefined VUndefined ∧ t = _tag (release_env [Item json_entry]))) ∧
      (getAsset (release_env [Item json_entry]) owner repo (Some prefix) (Some extension) t
         (log (MsgUpdating t) release_world)).1 = Resolved (Some a) ∧
      existsSync w'
        (VString (Path.join [Path.join [__dirname (release_env [Item json_entry]); dataFolder];
                             asset_name a])) = false.
Proof.
  eexists.
  assert (H : update (release_env [Item json_entry]) VUndefined release_world
              = (Resolved (Some (lit "jmdict-all-3.5.0.json")),
                 (update (release_env [Item json_entry]) VUndefined release_world).2))
    by (vm_compute; reflexivity).
  split; [exact H|].
  exact (update_leaves_no_archive _ _ _ _ _ H).
Defined.

(** X19: when the build resolves true, update had resolved the name of
    a source file, and the release folder holds the serialized index of
    that file together with the compression of exactly that text. *)
Theorem successful_build_outputs (E : env) (tagArg : value) (w w' : world) :
  build E tagArg w = (Resolved true, w') →
  ∃ filename w1 o,
    update E tagArg w = (Resolved (Some filename), w1) ∧
    indexed E filename w1 = Some o ∧
    files w' !! outputFilePath E = Some (JSON_stringify E o) ∧
    files w' !! gzippedOutputFilePath E = Some (gzip_bytes E (JSON_stringify E o)).
Proof.
  unfold build, await.
  destruct (update E tagArg w) as [[[filename|]|] w1]; try discriminate.
  intros (o & Ho & Hout & Hgz)%convert_true_output.
  by exists filename, w1, o.
Qed.

Lemma successful_build_outputs_witness :
  ∃ w',
    build (release_env [Item json_entry]) VUndefined release_world = (Resolved true, w') ∧
    ∃ filename w1 o,
      update (release_env [Item json_entry]) VUndefined release_world
        = (Resolved (Some filename), w1) ∧
      indexed (release_env [Item json_entry]) filename w1 = Some o ∧
      files w' !! outputFilePath (release_env [Item json_entry])
        = Some (JSON_stringify (release_env [Item json_entry]) o) ∧
      files w' !! gzippedOutputFilePath (release_env [Item json_entry])
        = Some (gzip_bytes (release_env [Item json_entry])
                  (JSON_stringify (release_env [Item json_entry]) o)).
Proof.
  eexists.
  assert (H : build (release_env [Item json_entry]) VUndefined release_world
              = (Resolved true,
                 (build (release_env [Item json_entry]) VUndefined release_world).2))
    by (vm_compute; reflexivity).
  split; [exact H|].
  exact (successful_build_outputs _ _ _ _ H).
Defined.



